(** * flocker.control._protocol: the control service / convergence agent protocol

    A shallow embedding of [flocker/control/_protocol.py]: the [Big] AMP
    argument (chunking of values larger than [MAX_VALUE_LENGTH]), the
    [CachingEncoder], [SerializableArgument], the [ControlServiceLocator]
    and the fan-out engine of [ControlAMPService].

    Python code that mutates dictionaries in place and may raise is written
    in a state-and-exception monad: the state survives a raise, as the
    mutations of a Python object do. *)

From Stdlib Require Import Strings.Byte.
From Equations.Prop Require Import Equations Logic.
From stdpp Require Import gmap strings list pretty.

Set Default Proof Using "Type".

(** ** Exceptions and the state-and-exception monad *)

Inductive exn : Type :=
  | KeyError
  | NameError
  | TypeError
  | RemoteError (code : nat)
  | UnhandledCommand
  | FuelExhausted
  | AttributeError
  | AssertionError.

Global Instance exn_eq_dec : EqDecision exn.
Proof. solve_decision. Defined.

Inductive outcome (A : Type) : Type :=
  | Returns (a : A)
  | Raises (e : exn).
Arguments Returns {A} a.
Arguments Raises {A} e.

Definition M (S A : Type) : Type := S → outcome A * S.

Global Instance M_ret {S} : MRet (M S) := λ A a s, (Returns a, s).
Global Instance M_bind {S} : MBind (M S) := λ A B f m s,
  match m s with
  | (Returns a, s') => f a s'
  | (Raises e, s') => (Raises e, s')
  end.

Definition raise {S A} (e : exn) : M S A := λ s, (Raises e, s).
Definition modify {S} (f : S → S) : M S unit := λ s, (Returns tt, f s).

(** [for x in l: body(x)]: the loop stops at the first raise. *)
Fixpoint for_each {S A} (l : list A) (body : A → M S unit) : M S unit :=
  match l with
  | [] => mret tt
  | x :: l' => body x ;; for_each l' body
  end.

Abbreviation bytes := (list byte).

(** [twisted.protocols.amp.MAX_VALUE_LENGTH], the largest value an AMP box
    can carry (0xffff). *)
Definition MAX_VALUE_LENGTH : nat := Z.to_nat 65535.

(** ["%s.%d" % (name, counter)] *)
Definition chunk_key (name : string) (counter : nat) : string :=
  name +:+ "." +:+ pretty counter.

(** ** The chunking loop of [Big.toBox]

    [value] is what is left to read of the [BytesIO]; [value.read(n)]
    returns [take n value] and leaves [drop n value]. *)
Equations? toBox_loop (n : nat) (name : string) (value : bytes) (counter : nat)
    (strings : gmap string bytes) : gmap string bytes by wf (length value) lt :=
  toBox_loop n name value counter strings with decide (take n value = []) := {
    | left _ => strings
    | right Hread =>
        toBox_loop n name (drop n value) (S counter)
                   (<[chunk_key name counter := take n value]> strings) }.
Proof.
  destruct n as [|n]; [done|]. destruct value as [|b0 value]; [done|].
  rewrite length_drop. simpl. lia.
Qed.

(** ** The reassembly loop of [Big.fromBox]

    [for counter in count(0)] has no bound of its own: it ends at the first
    index whose key is missing.  The model runs it with fuel; [None] is
    fuel exhaustion. *)
Fixpoint fromBox_loop (fuel : nat) (name : string) (counter : nat) (value : bytes)
    (strings : gmap string bytes) : option (gmap string bytes) :=
  match fuel with
  | O => None
  | S fuel' =>
      match strings !! chunk_key name counter with
      | None => Some strings
      | Some chunk =>
          let value' := value ++ chunk in
          fromBox_loop fuel' name (S counter) value' (<[name := value']> strings)
      end
  end.

(** [flocker.control._persistence.wire_encode] and [wire_decode], over the
    Python objects that travel in commands, opaque to this module. *)
Class WireCodec (Obj : Type) : Type := {
  wire_encode : Obj → bytes;
  wire_decode : bytes → outcome Obj;
}.

Section Codec.
Context {Obj : Type} `{Countable Obj} `{!WireCodec Obj}.

(** *** CachingEncoder *)
Record CachingEncoder : Type := { _cache : option (gmap Obj bytes) }.

(** [CachingEncoder.__init__] *)
Definition CachingEncoder_init : CachingEncoder := {| _cache := None |}.

(** [CachingEncoder.encode] *)
Definition encode (obj : Obj) : M CachingEncoder bytes := λ self,
  match _cache self with
  | None => (Returns (wire_encode obj), self)
  | Some cache =>
      match cache !! obj with
      | Some cached => (Returns cached, self)
      | None =>
          let cache' := <[obj := wire_encode obj]> cache in
          (Returns (wire_encode obj), {| _cache := Some cache' |})
      end
  end.

(** [CachingEncoder.cache], a generator-based context manager: the
    statements before [yield] run on entry, the statement after it runs
    when the block returns.  There is no [try]/[finally] around the
    [yield]: when the block raises, the exception is re-raised at the
    [yield] and the assignment after it is not executed. *)
Definition cache_enter : M CachingEncoder unit :=
  modify (λ _, {| _cache := Some ∅ |}).
Definition cache_exit : M CachingEncoder unit :=
  modify (λ _, {| _cache := None |}).

Definition with_cache {S A} (get : S → CachingEncoder)
    (set : CachingEncoder → S → S) (block : M S A) : M S A := λ s,
  let s1 := set (snd (cache_enter (get s))) s in
  match block s1 with
  | (Returns a, s2) => (Returns a, set (snd (cache_exit (get s2))) s2)
  | (Raises e, s2) => (Raises e, s2)
  end.

(** *** AMP arguments *)

(** What [toBox] and [fromBox] work on: the [strings] and [objects]
    dictionaries, both mutated in place, and the module-level
    [_caching_encoder]. *)
Record frame : Type := {
  strings : gmap string bytes;
  objects : gmap string Obj;
  encoder : CachingEncoder;
}.

Definition set_strings (f : gmap string bytes → gmap string bytes) (fr : frame) : frame :=
  {| strings := f (strings fr); objects := objects fr; encoder := encoder fr |}.
Definition set_objects (f : gmap string Obj → gmap string Obj) (fr : frame) : frame :=
  {| strings := strings fr; objects := f (objects fr); encoder := encoder fr |}.
Definition set_encoder (e : CachingEncoder) (fr : frame) : frame :=
  {| strings := strings fr; objects := objects fr; encoder := e |}.

(** [IArgumentType] *)
Record IArgumentType : Type := {
  toBox : string → M frame unit;
  fromBox : string → M frame unit;
}.

(** [d.pop(name)] on the two dictionaries. *)
Definition strings_pop (name : string) : M frame bytes := λ fr,
  match strings fr !! name with
  | Some v => (Returns v, set_strings (delete name) fr)
  | None => (Raises KeyError, fr)
  end.
Definition objects_pop (name : string) : M frame Obj := λ fr,
  match objects fr !! name with
  | Some v => (Returns v, set_objects (delete name) fr)
  | None => (Raises KeyError, fr)
  end.

(** [twisted.protocols.amp.Argument] with [optional=False], the base class
    of the wrapped arguments: [toBox] pops the object and stores
    [toString(obj)] under [name]; [fromBox] pops the string and stores
    [fromString(st)] under [name]. *)
Definition Argument (toString : Obj → M CachingEncoder bytes)
    (fromString : bytes → outcome Obj) : IArgumentType :=
  {| toBox := λ name,
       obj ← objects_pop name;
       st ← (λ fr, let '(r, e) := toString obj (encoder fr) in (r, set_encoder e fr));
       modify (set_strings <[name := st]>);
     fromBox := λ name,
       st ← strings_pop name;
       obj ← (λ fr, (fromString st, fr));
       modify (set_objects <[name := obj]>) |}.

(** *** Big *)

(** [Big.toBox] *)
Definition Big_toBox (another_argument : IArgumentType) (name : string) : M frame unit :=
  toBox another_argument name ;;
  value ← strings_pop name;
  modify (set_strings (toBox_loop MAX_VALUE_LENGTH name value 0)).

(** [Big.fromBox] *)
Definition Big_fromBox (another_argument : IArgumentType) (name : string) : M frame unit :=
  (λ fr, match fromBox_loop (S (size (strings fr))) name 0 [] (strings fr) with
         | Some strings' => (Returns tt, set_strings (λ _, strings') fr)
         | None => (Raises FuelExhausted, fr)
         end) ;;
  fromBox another_argument name.

Definition Big (another_argument : IArgumentType) : IArgumentType :=
  {| toBox := Big_toBox another_argument;
     fromBox := Big_fromBox another_argument |}.

(** *** SerializableArgument *)

(** [isinstance(obj, self._expected_classes)], the classes given as the
    predicate they define on objects. *)
Definition SerializableArgument_toString (_expected_classes : Obj → bool) (obj : Obj)
    : M CachingEncoder bytes :=
  if _expected_classes obj then encode obj else raise TypeError.

Definition SerializableArgument_fromString (_expected_classes : Obj → bool)
    (in_bytes : bytes) : outcome Obj :=
  match wire_decode in_bytes with
  | Returns obj => if _expected_classes obj then Returns obj else Raises TypeError
  | Raises e => Raises e
  end.

Definition SerializableArgument (_expected_classes : Obj → bool) : IArgumentType :=
  Argument (SerializableArgument_toString _expected_classes)
           (SerializableArgument_fromString _expected_classes).

End Codec.


(** ** ChangeSource and ControlServiceLocator *)

(** Modelled from the spec: the class [ChangeSource] of
    [flocker.control._model], which [_protocol.py] imports.  The spec gives
    it a [last_activity] in monotonic seconds and a [set_last_activity(t)]
    that is idempotent and non-decreasing: a [t] smaller than the recorded
    one is ignored.  Clock readings are taken in a totally ordered scale of
    ticks. *)
Record ChangeSource : Type := { _last_activity : Z }.

Definition set_last_activity (since_epoch : Z) (self : ChangeSource) : ChangeSource :=
  {| _last_activity := Z.max (_last_activity self) since_epoch |}.

Definition last_activity (self : ChangeSource) : Z := _last_activity self.

(** The responders of [ControlServiceLocator]. *)
Inductive responder : Type := noop | version | node_changed_responder.

(** [CommandLocator.locateResponder]: the responder registered for the
    command name, [None] when there is none. *)
Definition CommandLocator_locateResponder (name : string) : option responder :=
  if decide (name = "NoOp") then Some noop
  else if decide (name = "VersionCommand") then Some version
  else if decide (name = "NodeStateCommand") then Some node_changed_responder
  else None.

Record ControlServiceLocator : Type := { _source : ChangeSource }.

(** [ControlServiceLocator.locateResponder]; [seconds] is what
    [self._reactor.seconds()] returns at the call. *)
Definition locateResponder (seconds : Z) (name : string) (self : ControlServiceLocator)
    : option responder * ControlServiceLocator :=
  let self' := {| _source := set_last_activity seconds (_source self) |} in
  (CommandLocator_locateResponder name, self').

(** ** Deferreds, transports and the log *)

(** A connection (a [ControlAMP] instance) and a [Deferred], by identity. *)
Abbreviation conn := nat.
Abbreviation deferred_id := nat.

(** The callbacks this module attaches to the [Deferred] of a
    [ClusterStatusCommand]. *)
Inductive callback : Type :=
  | ActionFinish (agent : conn)          (* d.addActionFinish() *)
  | SwallowErr                           (* d.result.addErrback(lambda _: None) *)
  | finished_update (connection : conn)  (* addCallback(finished_update, connection) *)
  | resend (connection : conn).          (* addCallback(lambda ignored, connection:
                                              self._send_state_to_connections([connection]),
                                              connection) *)

(** The result a [Deferred] carries along its callback chain. *)
Inductive dresult : Type := Success | Failure (e : exn).

(** A [Deferred]: waiting for its result, with the connection whose
    [callRemote] returned it and the callbacks attached so far, or fired. *)
Inductive deferred : Type :=
  | Pending (connection : conn) (callbacks : list callback)
  | Called (result : dresult).

(** What [connection.callRemote] does once the arguments are serialized:
    write the box and return a waiting [Deferred]; return [fail(reason)]
    because the connection is lost; or raise. *)
Inductive transport_state : Type :=
  | Connected
  | Lost (reason : exn)
  | Failing (e : exn).

(** The callback registered with the persistence service,
    [lambda: self._send_state_to_connections(self.connections)]. *)
Inductive listener : Type := send_state_to_all_connections.


(** ** ControlAMPService *)

(** Eliot actions and what reaches the log. *)
Inductive Action {Obj : Type} : Type :=
  | LOG_SEND_CLUSTER_STATE (configuration state : Obj)
  | LOG_SEND_TO_AGENT (agent : conn)
  | AGENT_CONNECTED (agent : conn).
Arguments Action Obj : clear implicits.

Inductive log_event {Obj : Type} : Type :=
  | started (a : Action Obj)
  | finished (a : Action Obj) (r : dresult).
Arguments log_event Obj : clear implicits.

(** What the service is given and what it imports:
    [isinstance(obj, Deployment)] and [isinstance(obj, DeploymentState)];
    the [ClusterStateService] ([flocker.control._clusterstate]) with its
    state, [apply_changes_from_source] and [as_deployment];
    [action.serialize_task_id()], which is what
    [_EliotActionArgument.toString] returns. *)
Class Collaborators (Obj ClusterState : Type) : Type := {
  is_Deployment : Obj → bool;
  is_DeploymentState : Obj → bool;
  apply_changes_from_source : ChangeSource → Obj → ClusterState → ClusterState;
  as_deployment : ClusterState → Obj;
  serialize_task_id : Action Obj → bytes;
}.

Section ControlService.
Context {Obj : Type} `{Countable Obj} `{!WireCodec Obj}.
Context {ClusterState : Type} `{!Collaborators Obj ClusterState}.

(** A [ClusterStatusCommand] written to a connection: the arguments of
    [callRemote] and the box they were serialized to. *)
Record message : Type := {
  msg_connection : conn;
  msg_configuration : Obj;
  msg_state : Obj;
  msg_box : gmap string bytes;
}.

(** The control service with what it shares with its collaborators. *)
Record world : Type := {
  (* ControlAMPService *)
  connections : gset conn;
  _current_command_for_connection : gmap conn (deferred_id * bool);
  cluster_state : ClusterState;
  endpoint_running : bool;
  (* the persistence service *)
  configuration : Obj;
  registered : list listener;
  (* the module: [_caching_encoder] and what the global name [action]
     is bound to, if it is bound *)
  _caching_encoder : CachingEncoder (Obj:=Obj);
  global_action : option (Action Obj);
  (* Twisted *)
  deferreds : gmap deferred_id deferred;
  transport : conn → transport_state;
  closing : gset conn;
  wire : list message;
  (* Eliot *)
  eliot_log : list (log_event Obj);
  (* the [Pinger] of each [ControlAMP]: no entry while [_pinging] is not
     assigned, then whether its [LoopingCall] is running *)
  _pinging : gmap conn bool;
}.

Definition set_connections (f : gset conn → gset conn) (w : world) : world :=
  {| connections := f (connections w);
     _current_command_for_connection := _current_command_for_connection w;
     cluster_state := cluster_state w; endpoint_running := endpoint_running w;
     configuration := configuration w; registered := registered w;
     _caching_encoder := _caching_encoder w; global_action := global_action w;
     deferreds := deferreds w; transport := transport w; closing := closing w;
     wire := wire w; eliot_log := eliot_log w;
     _pinging := _pinging w |}.

Definition set_current_command
    (f : gmap conn (deferred_id * bool) → gmap conn (deferred_id * bool)) (w : world) : world :=
  {| connections := connections w;
     _current_command_for_connection := f (_current_command_for_connection w);
     cluster_state := cluster_state w; endpoint_running := endpoint_running w;
     configuration := configuration w; registered := registered w;
     _caching_encoder := _caching_encoder w; global_action := global_action w;
     deferreds := deferreds w; transport := transport w; closing := closing w;
     wire := wire w; eliot_log := eliot_log w;
     _pinging := _pinging w |}.

Definition set_cluster_state (f : ClusterState → ClusterState) (w : world) : world :=
  {| connections := connections w;
     _current_command_for_connection := _current_command_for_connection w;
     cluster_state := f (cluster_state w); endpoint_running := endpoint_running w;
     configuration := configuration w; registered := registered w;
     _caching_encoder := _caching_encoder w; global_action := global_action w;
     deferreds := deferreds w; transport := transport w; closing := closing w;
     wire := wire w; eliot_log := eliot_log w;
     _pinging := _pinging w |}.

Definition set_endpoint_running (b : bool) (w : world) : world :=
  {| connections := connections w;
     _current_command_for_connection := _current_command_for_connection w;
     cluster_state := cluster_state w; endpoint_running := b;
     configuration := configuration w; registered := registered w;
     _caching_encoder := _caching_encoder w; global_action := global_action w;
     deferreds := deferreds w; transport := transport w; closing := closing w;
     wire := wire w; eliot_log := eliot_log w;
     _pinging := _pinging w |}.

Definition set_configuration (cfg : Obj) (w : world) : world :=
  {| connections := connections w;
     _current_command_for_connection := _current_command_for_connection w;
     cluster_state := cluster_state w; endpoint_running := endpoint_running w;
     configuration := cfg; registered := registered w;
     _caching_encoder := _caching_encoder w; global_action := global_action w;
     deferreds := deferreds w; transport := transport w; closing := closing w;
     wire := wire w; eliot_log := eliot_log w;
     _pinging := _pinging w |}.

Definition set_registered (f : list listener → list listener) (w : world) : world :=
  {| connections := connections w;
     _current_command_for_connection := _current_command_for_connection w;
     cluster_state := cluster_state w; endpoint_running := endpoint_running w;
     configuration := configuration w; registered := f (registered w);
     _caching_encoder := _caching_encoder w; global_action := global_action w;
     deferreds := deferreds w; transport := transport w; closing := closing w;
     wire := wire w; eliot_log := eliot_log w;
     _pinging := _pinging w |}.

Definition set_caching_encoder (e : CachingEncoder (Obj:=Obj)) (w : world) : world :=
  {| connections := connections w;
     _current_command_for_connection := _current_command_for_connection w;
     cluster_state := cluster_state w; endpoint_running := endpoint_running w;
     configuration := configuration w; registered := registered w;
     _caching_encoder := e; global_action := global_action w;
     deferreds := deferreds w; transport := transport w; closing := closing w;
     wire := wire w; eliot_log := eliot_log w;
     _pinging := _pinging w |}.

Definition set_deferreds (f : gmap deferred_id deferred → gmap deferred_id deferred)
    (w : world) : world :=
  {| connections := connections w;
     _current_command_for_connection := _current_command_for_connection w;
     cluster_state := cluster_state w; endpoint_running := endpoint_running w;
     configuration := configuration w; registered := registered w;
     _caching_encoder := _caching_encoder w; global_action := global_action w;
     deferreds := f (deferreds w); transport := transport w; closing := closing w;
     wire := wire w; eliot_log := eliot_log w;
     _pinging := _pinging w |}.

Definition set_transport (f : (conn → transport_state) → conn → transport_state)
    (w : world) : world :=
  {| connections := connections w;
     _current_command_for_connection := _current_command_for_connection w;
     cluster_state := cluster_state w; endpoint_running := endpoint_running w;
     configuration := configuration w; registered := registered w;
     _caching_encoder := _caching_encoder w; global_action := global_action w;
     deferreds := deferreds w; transport := f (transport w); closing := closing w;
     wire := wire w; eliot_log := eliot_log w;
     _pinging := _pinging w |}.

Definition set_closing (f : gset conn → gset conn) (w : world) : world :=
  {| connections := connections w;
     _current_command_for_connection := _current_command_for_connection w;
     cluster_state := cluster_state w; endpoint_running := endpoint_running w;
     configuration := configuration w; registered := registered w;
     _caching_encoder := _caching_encoder w; global_action := global_action w;
     deferreds := deferreds w; transport := transport w; closing := f (closing w);
     wire := wire w; eliot_log := eliot_log w;
     _pinging := _pinging w |}.

Definition set_wire (f : list message → list message) (w : world) : world :=
  {| connections := connections w;
     _current_command_for_connection := _current_command_for_connection w;
     cluster_state := cluster_state w; endpoint_running := endpoint_running w;
     configuration := configuration w; registered := registered w;
     _caching_encoder := _caching_encoder w; global_action := global_action w;
     deferreds := deferreds w; transport := transport w; closing := closing w;
     wire := f (wire w); eliot_log := eliot_log w;
     _pinging := _pinging w |}.

Definition set_eliot_log (f : list (log_event Obj) → list (log_event Obj)) (w : world) : world :=
  {| connections := connections w;
     _current_command_for_connection := _current_command_for_connection w;
     cluster_state := cluster_state w; endpoint_running := endpoint_running w;
     configuration := configuration w; registered := registered w;
     _caching_encoder := _caching_encoder w; global_action := global_action w;
     deferreds := deferreds w; transport := transport w; closing := closing w;
     wire := wire w; eliot_log := f (eliot_log w);
     _pinging := _pinging w |}.

Definition set_pinging (f : gmap conn bool → gmap conn bool) (w : world) : world :=
  {| connections := connections w;
     _current_command_for_connection := _current_command_for_connection w;
     cluster_state := cluster_state w; endpoint_running := endpoint_running w;
     configuration := configuration w; registered := registered w;
     _caching_encoder := _caching_encoder w; global_action := global_action w;
     deferreds := deferreds w; transport := transport w; closing := closing w;
     wire := wire w; eliot_log := eliot_log w;
     _pinging := f (_pinging w) |}.

Definition log (ev : log_event Obj) : M world unit :=
  modify (set_eliot_log (λ l, l ++ [ev])).

(** [with SOME_ACTION(...):]: the start is logged on entry, the finish on
    exit, with the exception when the block raised, which then goes on. *)
Definition with_action {A} (a : Action Obj) (block : M world A) : M world A := λ w,
  match block (snd (log (started a) w)) with
  | (Returns v, w') => (Returns v, snd (log (finished a Success) w'))
  | (Raises e, w') => (Raises e, snd (log (finished a (Failure e)) w'))
  end.

(** *** Sending a [ClusterStatusCommand] *)

(** [ClusterStatusCommand.arguments]; [eliot_context] is a [Unicode]
    argument whose string is the task id of the action. *)
Definition ClusterStatusCommand_configuration : IArgumentType (Obj:=Obj) :=
  Big (SerializableArgument is_Deployment).
Definition ClusterStatusCommand_state : IArgumentType (Obj:=Obj) :=
  Big (SerializableArgument is_DeploymentState).

(** [Command.makeArguments]: each argument of the command, in the order of
    [arguments], puts its strings in a new box ([args_frame] below). *)
Definition makeArguments (configuration state : Obj) (eliot_context : Action Obj)
    : M (frame (Obj:=Obj)) unit :=
  toBox ClusterStatusCommand_configuration "configuration" ;;
  toBox ClusterStatusCommand_state "state" ;;
  modify (set_strings <["eliot_context" := serialize_task_id eliot_context]>).

(** The dictionaries [makeArguments] starts from: an empty box and the
    keyword arguments of [callRemote]. *)
Definition args_frame (configuration state : Obj) (e : CachingEncoder (Obj:=Obj))
    : frame (Obj:=Obj) :=
  {| strings := ∅;
     objects := <["configuration" := configuration]> {["state" := state]};
     encoder := e |}.

(** [connection.callRemote(ClusterStatusCommand, configuration=...,
    state=..., eliot_context=...)]: a failure to serialize raises out of
    [callRemote]; after that the transport decides. *)
Definition callRemote (connection : conn) (configuration state : Obj)
    (eliot_context : Action Obj) : M world deferred_id := λ w,
  let fr := args_frame configuration state (_caching_encoder w) in
  let '(r, fr') := makeArguments configuration state eliot_context fr in
  let w1 := set_caching_encoder (encoder fr') w in
  match r with
  | Raises e => (Raises e, w1)
  | Returns _ =>
      let d := fresh (dom (deferreds w1)) in
      match transport w1 connection with
      | Failing e => (Raises e, w1)
      | Lost reason =>
          (Returns d, set_deferreds <[d := Called (Failure reason)]> w1)
      | Connected =>
          let m := {| msg_connection := connection; msg_configuration := configuration;
                      msg_state := state; msg_box := strings fr' |} in
          (Returns d, set_wire (λ l, l ++ [m])
                        (set_deferreds <[d := Pending connection []]> w1))
      end
  end.

(** *** Callbacks *)

(** [del self._current_command_for_connection[connection]] *)
Definition del_current_command (connection : conn) : M world unit := λ w,
  match _current_command_for_connection w !! connection with
  | Some _ => (Returns tt, set_current_command (delete connection) w)
  | None => (Raises KeyError, w)
  end.

(** One callback of a chain, other than [resend], on the result so far.  A
    callback added with [addCallback] is skipped when the result is a
    failure; an exception raised by a callback becomes the result. *)
Definition run_callback_now (cb : callback) (r : dresult) (w : world) : dresult * world :=
  match cb, r with
  | ActionFinish agent, _ => (r, snd (log (finished (LOG_SEND_TO_AGENT agent) r) w))
  | SwallowErr, _ => (Success, w)
  | finished_update connection, Success =>
      match del_current_command connection w with
      | (Returns _, w') => (Success, w')
      | (Raises e, w') => (Failure e, w')
      end
  | finished_update _, Failure _ => (r, w)
  | resend _, _ => (r, w)
  end.

(** [d.addCallback] and the like for the three callbacks above: appended
    to the chain of a waiting [Deferred], run at once on a fired one. *)
Definition addCallback (d : deferred_id) (cb : callback) : M world unit := λ w,
  match deferreds w !! d with
  | Some (Pending connection cbs) =>
      (Returns tt, set_deferreds <[d := Pending connection (cbs ++ [cb])]> w)
  | Some (Called r) =>
      let '(r', w') := run_callback_now cb r w in
      (Returns tt, set_deferreds <[d := Called r']> w')
  | None => (Returns tt, w)
  end.

(** [current_command.addCallback(lambda ignored, connection: ..., connection)].
    The [Deferred] of an entry of [_current_command_for_connection] has not
    fired: [finished_update] deletes the entry when it does (lemma
    [entries_pending]).  The callback is appended to its chain. *)
Definition addCallback_resend (d : deferred_id) (connection : conn) : M world unit :=
  modify (set_deferreds (alter (λ st, match st with
                                      | Pending c cbs => Pending c (cbs ++ [resend connection])
                                      | Called r => Called r
                                      end) d)).

(** *** The fan-out *)

(** The global name [action], read in [_send_state_to_connections]: no
    statement of that function or of the module binds it. *)
Definition load_global_action : M world (Action Obj) := λ w,
  match global_action w with
  | Some a => (Returns a, w)
  | None => (Raises NameError, w)
  end.

(** [ControlAMPService._update_connection] *)
Definition _update_connection (connection : conn) (configuration state : Obj)
    (action : Action Obj) : M world deferred_id :=
  let action := LOG_SEND_TO_AGENT connection in
  log (started action) ;;
  d ← callRemote connection configuration state action;
  addCallback d (ActionFinish connection) ;;
  addCallback d SwallowErr ;;
  mret d.

(** The body of the loop of [_send_state_to_connections]. *)
Definition send_state_to_connection (configuration state : Obj) (connection : conn)
    : M world unit := λ w : world,
  match _current_command_for_connection w !! connection with
  | None =>
      (action ← load_global_action;
       current_command ← _update_connection connection configuration state action;
       modify (set_current_command <[connection := (current_command, false)]>) ;;
       addCallback current_command (finished_update connection) : M world unit) w
  | Some (current_command, already_scheduled) =>
      if (already_scheduled : bool) then (Returns tt, w)
      else
        (addCallback_resend current_command connection ;;
         modify (set_current_command <[connection := (current_command, true)]>)
         : M world unit) w
  end.

(** [ControlAMPService._send_state_to_connections] *)
Definition _send_state_to_connections (connections : list conn) : M world unit := λ w,
  let configuration := configuration w in
  let state := as_deployment (cluster_state w) in
  with_action (LOG_SEND_CLUSTER_STATE configuration state)
    (with_cache _caching_encoder set_caching_encoder
       (for_each connections (send_state_to_connection configuration state))) w.

(** [ControlAMPService.connected] *)
Definition connected (connection : conn) : M world unit :=
  with_action (AGENT_CONNECTED connection)
    (modify (set_connections (λ s, {[connection]} ∪ s)) ;;
     _send_state_to_connections [connection]).

(** [ControlAMPService.disconnected]; [set.remove] raises [KeyError] for
    an element that is not in the set. *)
Definition disconnected (connection : conn) : M world unit := λ w,
  if decide (connection ∈ connections w)
  then (Returns tt, set_connections (λ s, s ∖ {[connection]}) w)
  else (Raises KeyError, w).

(** [ControlAMPService.node_changed]; iterating over the set
    [self.connections] visits its elements in some order. *)
Definition node_changed (source : ChangeSource) (state_changes : Obj) : M world unit :=
  modify (set_cluster_state (apply_changes_from_source source state_changes)) ;;
  ((λ w, _send_state_to_connections (elements (connections w)) w) : M world unit).

(** [ControlAMPService.__init__] on its collaborators: no connection, no
    command under way, the callback registered with the persistence
    service. *)
Definition ControlAMPService_init (cluster : ClusterState) (cfg : Obj)
    (binding : option (Action Obj)) (net : conn → transport_state) : world :=
  {| connections := ∅; _current_command_for_connection := ∅;
     cluster_state := cluster; endpoint_running := false;
     configuration := cfg; registered := [send_state_to_all_connections];
     _caching_encoder := CachingEncoder_init; global_action := binding;
     deferreds := ∅; transport := net; closing := ∅; wire := [];
     eliot_log := []; _pinging := ∅ |}.

(** [ControlAMPService.startService] *)
Definition startService : M world unit := modify (set_endpoint_running true).

(** [ControlAMPService.stopService]: the endpoint service is stopped and
    every connection is asked to close, [transport.loseConnection()]. *)
Definition stopService : M world unit :=
  modify (set_endpoint_running false) ;;
  ((λ w, for_each (elements (connections w))
           (λ connection, modify (set_closing (λ s, {[connection]} ∪ s))) w)
   : M world unit).

(** *** The collaborators calling back *)

(** A registered callback, called by the persistence service. *)
Definition call_listener (l : listener) : M world unit :=
  match l with
  | send_state_to_all_connections =>
      λ w, _send_state_to_connections (elements (connections w)) w
  end.

(** Modelled from the spec: the persistence service of
    [flocker.control._persistence], of which [_protocol.py] calls [get] and
    [register].  A configuration change is committed, then every
    registered listener is invoked. *)
Definition configuration_save (cfg : Obj) : M world unit :=
  modify (set_configuration cfg) ;;
  ((λ w, for_each (registered w) call_listener w) : M world unit).

(** Any callback of a chain on the result so far. *)
Definition run_callback (cb : callback) (r : dresult) (w : world) : dresult * world :=
  match cb, r with
  | resend connection, Success =>
      match _send_state_to_connections [connection] w with
      | (Returns _, w') => (Success, w')
      | (Raises e, w') => (Failure e, w')
      end
  | _, _ => run_callback_now cb r w
  end.

Fixpoint run_callbacks (cbs : list callback) (r : dresult) (w : world) : dresult * world :=
  match cbs with
  | [] => (r, w)
  | cb :: cbs' => let '(r', w') := run_callback cb r w in run_callbacks cbs' r' w'
  end.

(** A waiting [Deferred] fires with [r]: its callbacks run in the order
    they were attached.  Firing a [Deferred] twice does not happen. *)
Definition fire (d : deferred_id) (r : dresult) (w : world) : world :=
  match deferreds w !! d with
  | Some (Pending _ cbs) =>
      let '(r', w') := run_callbacks cbs r (set_deferreds <[d := Called r]> w) in
      set_deferreds <[d := Called r']> w'
  | _ => w
  end.

(** The waiting [Deferred]s of a connection. *)
Definition is_outstanding (connection : conn) (st : deferred) : bool :=
  match st with
  | Pending c _ => bool_decide (c = connection)
  | Called _ => false
  end.

Definition outstanding (connection : conn) (w : world) : list deferred_id :=
  fst <$> filter (λ p : deferred_id * deferred, is_outstanding connection (snd p) = true)
                 (map_to_list (deferreds w)).

(** [Pinger.start]: a new [LoopingCall] is assigned to [_pinging] and
    started.  The [NoOp] boxes it writes from then on are no
    [ClusterStatusCommand]s and are not recorded in [wire]. *)
Definition Pinger_start (connection : conn) : M world unit :=
  modify (set_pinging <[connection := true]>).

(** [Pinger.stop]: [self._pinging.stop()].  Reading [_pinging] raises
    [AttributeError] when [start] never assigned it; [LoopingCall.stop]
    asserts that the call is running. *)
Definition Pinger_stop (connection : conn) : M world unit := λ w,
  match _pinging w !! connection with
  | None => (Raises AttributeError, w)
  | Some false => (Raises AssertionError, w)
  | Some true => (Returns tt, set_pinging <[connection := false]> w)
  end.

(** [ControlAMP.connectionMade]: the service is told, then the pinger is
    started; when [connected] raises, the pinger is not started. *)
Definition connectionMade (connection : conn) : M world unit :=
  connected connection ;;
  Pinger_start connection.

(** [ControlAMP.connectionLost]: [AMP.connectionLost] fails the
    outstanding commands of the connection with the reason and has later
    [callRemote]s return [fail(reason)]; then the service is told; then the
    pinger is stopped. *)
Definition connectionLost (connection : conn) (reason : exn) : M world unit :=
  modify (set_transport (λ net c, if decide (c = connection) then Lost reason else net c)) ;;
  ((λ w, (Returns tt, foldr (λ d, fire d (Failure reason)) w (outstanding connection w)))
   : M world unit) ;;
  disconnected connection ;;
  Pinger_stop connection.

(** *** Commands coming in *)

(** What a responder answers. *)
Inductive response : Type := empty_response | major_response (major : nat).

(** The responders of [ControlServiceLocator]: [noop], [version] and
    [node_changed], which hands [self._source] to the service. *)
Definition run_responder (r : option responder) (state_changes : Obj)
    : M (ControlServiceLocator * world) response := λ '(self, w),
  match r with
  | None => (Raises UnhandledCommand, (self, w))
  | Some noop => (Returns empty_response, (self, w))
  | Some version => (Returns (major_response 1), (self, w))
  | Some node_changed_responder =>
      match node_changed (_source self) state_changes w with
      | (Returns _, w') => (Returns empty_response, (self, w'))
      | (Raises e, w') => (Raises e, (self, w'))
      end
  end.

(** A command comes in on a connection ([BoxDispatcher] of Twisted): the
    locator of the connection is asked for the responder, then the
    responder is called. *)
Definition dispatch (seconds : Z) (name : string) (state_changes : Obj)
    : M (ControlServiceLocator * world) response := λ '(self, w),
  let '(r, self') := locateResponder seconds name self in
  run_responder r state_changes (self', w).

End ControlService.

(** ** The agent side *)

(** [IConvergenceAgent], over the state of the agent: what the agent does
    when the client connects, disconnects and when the cluster is updated. *)
Class IConvergenceAgent (Obj AgentState : Type) : Type := {
  agent_connected : M AgentState unit;
  agent_disconnected : M AgentState unit;
  cluster_updated : Obj → Obj → M AgentState unit;
}.

(** [Action.continue_task(proto.logger, task_id)], which
    [_EliotActionArgument.fromStringProto] returns. *)
Class EliotTasks (Obj : Type) : Type := {
  continue_task : bytes → outcome (Action Obj);
}.

Section AgentSide.
Context {Obj : Type} `{Countable Obj} `{!WireCodec Obj}.
Context {ClusterState : Type} `{!Collaborators Obj ClusterState}.
Context {AgentState : Type} `{!IConvergenceAgent Obj AgentState} `{!EliotTasks Obj}.

(** [ClusterStatusCommand.parseArguments] on the box of a command: each
    argument of [arguments], in order, takes its strings from a copy of the
    box and puts its object in a new dictionary; the action of
    [eliot_context] is returned beside it. *)
Definition parseArguments : M (frame (Obj:=Obj)) (Action Obj) :=
  fromBox ClusterStatusCommand_configuration "configuration" ;;
  fromBox ClusterStatusCommand_state "state" ;;
  task_id ← strings_pop "eliot_context";
  ((λ fr, (continue_task task_id, fr)) : M (frame (Obj:=Obj)) (Action Obj)).

(** [_AgentLocator.cluster_updated]; the block runs in the context of the
    action, which only the log sees. *)
Definition _AgentLocator_cluster_updated (eliot_context : Action Obj)
    (configuration state : Obj) : M AgentState response :=
  cluster_updated configuration state ;; mret empty_response.

(** The responder of [ClusterStatusCommand]: the arguments are parsed, then
    [cluster_updated] is called with them as keyword arguments. *)
Definition ClusterStatusCommand_responder (box : gmap string bytes)
    : M AgentState response := λ s,
  match parseArguments {| strings := box; objects := ∅; encoder := CachingEncoder_init |} with
  | (Raises e, _) => (Raises e, s)
  | (Returns eliot_context, fr) =>
      match objects fr !! "configuration", objects fr !! "state" with
      | Some configuration, Some state =>
          _AgentLocator_cluster_updated eliot_context configuration state s
      | _, _ => (Raises TypeError, s)
      end
  end.

(** A command comes in on the agent: [_AgentLocator] has the responders
    [noop] and [cluster_updated]. *)
Definition AgentAMP_dispatch (name : string) (box : gmap string bytes)
    : M AgentState response :=
  if decide (name = "NoOp") then mret empty_response
  else if decide (name = "ClusterStatusCommand") then ClusterStatusCommand_responder box
  else raise UnhandledCommand.

End AgentSide.

(** ** Vocabulary of the statements *)

Definition ceil_div (L n : nat) : nat := (L + n - 1) / n.

(** The [i]-th slice of [n] bytes. *)
Definition slice (n : nat) (value : bytes) (i : nat) : bytes :=
  take n (drop (i * n) value).

(** The callback chain of the [Deferred] of an entry
    [(current_command, already_scheduled)]. *)
Definition chain (c : conn) (already_scheduled : bool) : list callback :=
  [ActionFinish c; SwallowErr; finished_update c]
  ++ (if already_scheduled then [resend c] else []).

(** The entries of [_current_command_for_connection] are the waiting
    [Deferred]s, one for one, each with the chain of its entry. *)
Definition inv_core (ds : gmap deferred_id deferred) (cur : gmap conn (deferred_id * bool))
    : Prop :=
  (∀ d c cbs, ds !! d = Some (Pending c cbs) →
     ∃ b, cur !! c = Some (d, b) ∧ cbs = chain c b) ∧
  (∀ c d b, cur !! c = Some (d, b) → ds !! d = Some (Pending c (chain c b))).

Section Vocabulary.
Context {Obj : Type} `{Countable Obj} `{!WireCodec Obj}.
Context {ClusterState : Type} `{!Collaborators Obj ClusterState}.

Implicit Types (w : world (Obj:=Obj) (ClusterState:=ClusterState)).

(** A [ClusterStatusCommand] sent on [c] whose answer has not come. *)
Definition in_flight w (d : deferred_id) (c : conn) : Prop :=
  ∃ cbs, deferreds w !! d = Some (Pending c cbs).

Definition at_most_one_in_flight w : Prop :=
  ∀ c d1 d2, in_flight w d1 c → in_flight w d2 c → d1 = d2.

Definition service_inv w : Prop :=
  inv_core (deferreds w) (_current_command_for_connection w).

(** What a call leaves as it is and what it only adds to. *)
Record evolves w w' : Prop := {
  ev_connections : connections w' = connections w;
  ev_cluster_state : cluster_state w' = cluster_state w;
  ev_endpoint_running : endpoint_running w' = endpoint_running w;
  ev_configuration : configuration w' = configuration w;
  ev_registered : registered w' = registered w;
  ev_global_action : global_action w' = global_action w;
  ev_transport : transport w' = transport w;
  ev_closing : closing w' = closing w;
  ev_wire : wire w `prefix_of` wire w';
  ev_log : eliot_log w `prefix_of` eliot_log w';
  ev_called : ∀ d r, deferreds w !! d = Some (Called r) →
               ∃ r', deferreds w' !! d = Some (Called r');
  ev_pinging : _pinging w' = _pinging w;
}.

(** What can happen to the service between two turns of the reactor. *)
Inductive event : Type :=
  | ev_connectionMade (c : conn)
  | ev_connectionLost (c : conn) (reason : exn)
  | ev_answer (d : deferred_id) (r : dresult)
  | ev_node_changed (source : ChangeSource) (state_changes : Obj)
  | ev_configuration_saved (cfg : Obj)
  | ev_transport_changed (c : conn) (t : transport_state)
  | ev_startService
  | ev_stopService.

Definition step (e : event) w : world :=
  match e with
  | ev_connectionMade c => snd (connectionMade c w)
  | ev_connectionLost c reason => snd (connectionLost c reason w)
  | ev_answer d r => fire d r w
  | ev_node_changed source state_changes => snd (node_changed source state_changes w)
  | ev_configuration_saved cfg => snd (configuration_save cfg w)
  | ev_transport_changed c t =>
      set_transport (λ net c', if decide (c' = c) then t else net c') w
  | ev_startService => snd (startService w)
  | ev_stopService => snd (stopService w)
  end.

(** A computation that [evolves] the service, whatever its outcome. *)
Definition evolving {A} (m : M world A) : Prop := ∀ w, evolves w (snd (m w)).

(** A computation that keeps [service_inv], whatever its outcome. *)
Definition preserving {A} (m : M world A) : Prop :=
  ∀ w, service_inv w → service_inv (snd (m w)).

(** Events one after the other. *)
Definition run (es : list event) w : world := foldl (λ w e, step e w) w es.

(** The states of a service created by [__init__], whatever the
    collaborators and whatever the global name [action] is bound to. *)
Inductive reachable : world → Prop :=
  | reachable_init cluster cfg binding net :
      reachable (ControlAMPService_init cluster cfg binding net)
  | reachable_step e w : reachable w → reachable (step e w).

End Vocabulary.

(** ** Collaborators to run the service on *)

Module Example.

(** Objects are numbers; an object is written as that many bytes and one
    more. *)
#[global] Instance codec : WireCodec nat :=
  {| wire_encode := λ n, replicate (S n) "*"%byte;
     wire_decode := λ b, Returns (pred (length b)) |}.

(** Deployments are the numbers below 100, deployment states the others;
    the cluster state is a number that changes add to. *)
#[global] Instance collaborators : Collaborators nat nat :=
  {| is_Deployment := λ n, n <? 100;
     is_DeploymentState := λ n, 100 <=? n;
     apply_changes_from_source := λ _ changes cluster, cluster + changes;
     as_deployment := λ cluster, 100 + cluster;
     serialize_task_id := λ _, ["a"%byte] |}.

Definition always_connected : conn → transport_state := λ _, Connected.

(** The service as [__init__] leaves it, with configuration 1, the name
    [action] not bound, as in the module. *)
Definition service : world (Obj:=nat) (ClusterState:=nat) :=
  ControlAMPService_init 0 1 None always_connected.

(** The same with [action] bound to some action. *)
Definition service_bound : world (Obj:=nat) (ClusterState:=nat) :=
  ControlAMPService_init 0 1 (Some (AGENT_CONNECTED 0)) always_connected.

(** A state in which the command [0] is in flight on connection [5]. *)
Definition service_in_flight (binding : option (Action nat))
    : world (Obj:=nat) (ClusterState:=nat) :=
  {| connections := {[5]};
     _current_command_for_connection := {[5 := (0, false)]};
     cluster_state := 0; endpoint_running := true;
     configuration := 1; registered := [send_state_to_all_connections];
     _caching_encoder := CachingEncoder_init; global_action := binding;
     deferreds := {[0 := Pending 5 (chain 5 false)]};
     transport := always_connected; closing := ∅; wire := []; eliot_log := [];
     _pinging := {[5 := true]} |}.

(** Connection 1 raises in [callRemote], connection 2 is fine. *)
Definition first_failing : conn → transport_state :=
  λ c, if decide (c = 1) then Failing (RemoteError 7) else Connected.

(** Connection 1 is lost, connection 2 is fine. *)
Definition first_lost : conn → transport_state :=
  λ c, if decide (c = 1) then Lost (RemoteError 7) else Connected.

(** An argument that writes every object as zero bytes. *)
Definition empty_argument : IArgumentType (Obj:=nat) :=
  Argument (λ _ e, (Returns [], e)) (λ _, Returns 0).

(** The frame of a command with one argument [configuration]. *)
Definition one_argument (obj : nat) : frame (Obj:=nat) :=
  {| strings := ∅; objects := {["configuration" := obj]}; encoder := CachingEncoder_init |}.

(** The same frame when the box already holds a key ["configuration.1"]. *)
Definition stale_chunk (obj : nat) : frame (Obj:=nat) :=
  {| strings := {["configuration.1" := ["x"%byte]]};
     objects := {["configuration" := obj]};
     encoder := CachingEncoder_init |}.

End Example.

(** ** More vocabulary *)

Section MoreVocabulary.
Context {Obj : Type} `{Countable Obj} `{!WireCodec Obj}.
Context {ClusterState : Type} `{!Collaborators Obj ClusterState}.

(** Every entry of the cache is the wire encoding of its key. *)
Definition coherent (enc : CachingEncoder (Obj:=Obj)) : Prop :=
  ∀ cache obj v, _cache enc = Some cache → cache !! obj = Some v → v = wire_encode obj.

(** A message of the snapshot [(cfg, st)] on the connection [c]. *)
Definition carries (c : conn) (cfg st : Obj) (m : message (Obj:=Obj)) : Prop :=
  msg_connection m = c ∧ msg_configuration m = cfg ∧ msg_state m = st.

(** The cache of the service holds what [wire_encode] gives. *)
Definition cache_inv (w : world (Obj:=Obj) (ClusterState:=ClusterState)) : Prop :=
  coherent (_caching_encoder w).

(** A computation that keeps a property of the service, whatever its
    outcome. *)
Definition keeps (P : world (Obj:=Obj) (ClusterState:=ClusterState) → Prop) {A}
    (m : M world A) : Prop :=
  ∀ w, P w → P (snd (m w)).

(** The encoder and the wire are as they were. *)
Definition same_codec (w w' : world (Obj:=Obj) (ClusterState:=ClusterState)) : Prop :=
  _caching_encoder w' = _caching_encoder w ∧ wire w' = wire w.

(** A property that reads the encoder and the wire only. *)
Definition reads_codec (P : world (Obj:=Obj) (ClusterState:=ClusterState) → Prop) : Prop :=
  ∀ w w', same_codec w w' → P w → P w'.

(** What a property has to stand to be kept by the service: the
    [callRemote]s, and the cache being started and dropped. *)
Record stands_service (P : world (Obj:=Obj) (ClusterState:=ClusterState) → Prop)
    : Prop := {
  ss_reads : reads_codec P;
  ss_callRemote : ∀ c cfg st a, keeps P (callRemote c cfg st a);
  ss_enter : ∀ w, P w → P (set_caching_encoder {| _cache := Some ∅ |} w);
  ss_exit : ∀ w, P w → P (set_caching_encoder {| _cache := None |} w);
}.

(** The box of a [ClusterStatusCommand] whose arguments are serialized
    with [wire_encode]. *)
Definition command_box (cfg st : Obj) (a : Action Obj) : gmap string bytes :=
  <["eliot_context" := serialize_task_id a]>
    (toBox_loop MAX_VALUE_LENGTH "state" (wire_encode st) 0
       (delete "state"
          (toBox_loop MAX_VALUE_LENGTH "configuration" (wire_encode cfg) 0
             (delete "configuration" ∅)))).

End MoreVocabulary.

(** An agent that keeps the updates it is given, the last one first. *)
Module AgentExample.

#[global] Instance agent : IConvergenceAgent nat (list (nat * nat)) :=
  {| agent_connected := mret tt;
     agent_disconnected := mret tt;
     cluster_updated := λ configuration state, modify (cons (configuration, state)) |}.

#[global] Instance tasks : EliotTasks nat :=
  {| continue_task := λ _, Returns (AGENT_CONNECTED 0) |}.

End AgentExample.

(** * Properties *)

(** ** Chunk keys *)

Lemma chunk_key_inj name : Inj (=) (=) (chunk_key name).
Proof.
  intros i j Hij. unfold chunk_key in Hij.
  apply (inj (String.append name)) in Hij.
  apply (inj (String.append ".")) in Hij.
  by apply (inj pretty) in Hij.
Qed.

Lemma chunk_key_ne_name name i : chunk_key name i ≠ name.
Proof.
  unfold chunk_key. induction name as [|a name IH]; simpl.
  - discriminate.
  - intros [= Heq]. auto.
Qed.

(** ** The chunking loop *)

Lemma ceil_div_0 n : 0 < n → ceil_div 0 n = 0.
Proof. intros Hn. unfold ceil_div. apply Nat.div_small. lia. Qed.

Lemma ceil_div_step L n : 0 < n → 0 < L → ceil_div L n = S (ceil_div (L - n) n).
Proof.
  intros Hn HL. unfold ceil_div.
  destruct (decide (n ≤ L)) as [Hle|Hlt].
  - replace (L + n - 1) with ((L - n + n - 1) + 1 * n) by lia.
    rewrite Nat.div_add by lia. lia.
  - replace (L - n) with 0 by lia.
    rewrite (Nat.div_small (0 + n - 1)) by lia.
    symmetry. apply (Nat.div_unique _ _ 1 (L - 1)); lia.
Qed.

Lemma toBox_loop_done n name value counter strings :
  take n value = [] → toBox_loop n name value counter strings = strings.
Proof. intros Hnil. simp toBox_loop. by destruct (decide _). Qed.

Lemma toBox_loop_more n name value counter strings :
  take n value ≠ [] →
  toBox_loop n name value counter strings =
  toBox_loop n name (drop n value) (S counter)
             (<[chunk_key name counter := take n value]> strings).
Proof. intros Hne. rewrite toBox_loop_equation_1. by destruct (decide _). Qed.

Lemma take_nil_iff {A} n (l : list A) : 0 < n → take n l = [] ↔ l = [].
Proof. intros Hn. destruct n; [lia|]. by destruct l. Qed.

Lemma slice_succ n value i : slice n (drop n value) i = slice n value (S i).
Proof. unfold slice. by rewrite drop_drop. Qed.

Lemma slice_length_le n value i : length (slice n value i) ≤ n.
Proof. unfold slice. rewrite length_take. lia. Qed.

Lemma ceil_div_pos_iff L n : 0 < n → 0 < ceil_div L n ↔ 0 < L.
Proof.
  intros Hn. split.
  - destruct L; [|lia]. rewrite ceil_div_0 by done. lia.
  - intros HL. rewrite ceil_div_step by done. lia.
Qed.

(** Slices below the chunk count are not empty. *)
Lemma slice_nonempty n value i :
  0 < n → i < ceil_div (length value) n → slice n value i ≠ [].
Proof.
  intros Hn. revert value. induction i as [|i IH]; intros value Hi.
  - unfold slice. rewrite Nat.mul_0_l, drop_0, take_nil_iff by done.
    intros ->. simpl in Hi. rewrite ceil_div_0 in Hi by done. lia.
  - rewrite <-slice_succ. apply IH.
    assert (0 < length value).
    { destruct value; simpl; [|lia]. simpl in Hi. rewrite ceil_div_0 in Hi by done. lia. }
    rewrite ceil_div_step in Hi by done. rewrite length_drop. lia.
Qed.

(** The slices, in index order, make up the value. *)
Lemma slices_concat n value :
  0 < n → concat (slice n value <$> seq 0 (ceil_div (length value) n)) = value.
Proof.
  intros Hn. remember (length value) as L eqn:HL. revert value HL.
  induction L as [L IH] using lt_wf_ind. intros value ->.
  destruct (decide (value = [])) as [->|Hne].
  { simpl. by rewrite ceil_div_0. }
  assert (0 < length value) as Hpos by (destruct value; [done|simpl; lia]).
  rewrite ceil_div_step by done.
  rewrite <-cons_seq, fmap_cons, <-fmap_S_seq, <-list_fmap_compose. simpl concat.
  rewrite (list_fmap_ext (slice n value ∘ S) (slice n (drop n value)));
    [|intros; simpl; by rewrite slice_succ].
  rewrite <-length_drop, IH; [|rewrite length_drop; lia|done].
  unfold slice. rewrite Nat.mul_0_l, drop_0. apply take_drop.
Qed.

Lemma toBox_loop_spec n name value counter strings :
  0 < n →
  (∀ i, i < ceil_div (length value) n →
     toBox_loop n name value counter strings !! chunk_key name (counter + i)
     = Some (slice n value i)) ∧
  (∀ key, (∀ i, i < ceil_div (length value) n → key ≠ chunk_key name (counter + i)) →
     toBox_loop n name value counter strings !! key = strings !! key).
Proof.
  intros Hn. remember (length value) as L eqn:HL. revert value HL counter strings.
  induction L as [L IH] using lt_wf_ind. intros value -> counter strings.
  destruct (decide (take n value = [])) as [Hnil|Hne].
  { rewrite toBox_loop_done by done. apply take_nil_iff in Hnil as ->; [|done].
    simpl. rewrite ceil_div_0 by done. split; [lia|done]. }
  assert (0 < length value) as Hpos.
  { destruct value; simpl; [by destruct n|lia]. }
  rewrite toBox_loop_more, ceil_div_step by done.
  destruct (IH (length (drop n value))
              ltac:(rewrite length_drop; lia) (drop n value) eq_refl (S counter)
              (<[chunk_key name counter := take n value]> strings)) as [IHa IHb].
  rewrite length_drop in IHa, IHb. split.
  - intros [|i] Hi.
    + rewrite IHb.
      * rewrite Nat.add_0_r, lookup_insert_eq. unfold slice.
        by rewrite Nat.mul_0_l, drop_0.
      * intros j _ Heq%chunk_key_inj. lia.
    + replace (counter + S i) with (S counter + i) by lia.
      rewrite IHa by lia. by rewrite slice_succ.
  - intros key Hkey. rewrite IHb.
    + rewrite lookup_insert_ne; [done|]. intros <-. apply (Hkey 0); [lia|].
      by rewrite Nat.add_0_r.
    + intros j Hj. replace (S counter + j) with (counter + S j) by lia.
      apply Hkey. lia.
Qed.

(** ** The reassembly loop *)

(** With the keys [counter .. counter + length cs - 1] present and the next
    one missing, the loop writes the concatenation under [name], once per
    chunk read, and leaves the other keys alone. *)
Lemma fromBox_loop_spec cs : ∀ fuel name counter value (strings : gmap string bytes),
  (∀ i chunk, cs !! i = Some chunk →
     strings !! chunk_key name (counter + i) = Some chunk) →
  strings !! chunk_key name (counter + length cs) = None →
  length cs < fuel →
  fromBox_loop fuel name counter value strings =
  Some (if decide (cs = []) then strings else <[name := value ++ concat cs]> strings).
Proof.
  induction cs as [|c cs IH]; intros fuel name counter value strings Hcs Hend Hfuel.
  - destruct fuel as [|fuel]; [simpl in Hfuel; lia|]. simpl in *.
    rewrite Nat.add_0_r in Hend. by rewrite Hend.
  - destruct fuel as [|fuel]; [simpl in Hfuel; lia|]. simpl.
    pose proof (Hcs 0 c eq_refl) as H0. rewrite Nat.add_0_r in H0. rewrite H0.
    rewrite (IH fuel name (S counter) (value ++ c) (<[name := value ++ c]> strings)).
    + f_equal. destruct (decide (cs = [])) as [->|_].
      * simpl. by rewrite app_nil_r.
      * by rewrite insert_insert_eq, <-(assoc (++)).
    + intros i chunk Hi. rewrite lookup_insert_ne by (symmetry; apply chunk_key_ne_name).
      replace (S counter + i) with (counter + S i) by lia. by apply Hcs.
    + rewrite lookup_insert_ne by (symmetry; apply chunk_key_ne_name).
      simpl in Hend. by replace (S counter + length cs) with (counter + S (length cs)) by lia.
    + simpl in Hfuel. lia.
Qed.

(** A dictionary cannot hold more consecutive chunk keys than it has keys. *)
Lemma chunk_keys_bounded name (strings : gmap string bytes) b :
  (∀ i, i < b → is_Some (strings !! chunk_key name i)) → b ≤ size strings.
Proof.
  intros Hall.
  assert (NoDup (chunk_key name <$> seq 0 b)) as Hnd.
  { apply (NoDup_fmap_2 (chunk_key name)); first [apply chunk_key_inj|apply NoDup_seq]. }
  rewrite <-size_dom.
  etrans; [|apply (subseteq_size (list_to_set (chunk_key name <$> seq 0 b)))].
  - by rewrite size_list_to_set, length_fmap, length_seq.
  - intros key [i [-> Hi%elem_of_seq]]%elem_of_list_to_set%list_elem_of_fmap.
    apply elem_of_dom, Hall. lia.
Qed.

(** The chunks present from index 0 up to the first missing index. *)
Lemma first_missing_index name (strings : gmap string bytes) b :
  (∃ cs, length cs ≤ b ∧
     (∀ i chunk, cs !! i = Some chunk → strings !! chunk_key name i = Some chunk) ∧
     strings !! chunk_key name (length cs) = None) ∨
  (∀ i, i ≤ b → is_Some (strings !! chunk_key name i)).
Proof.
  induction b as [|b [(cs & Hlen & Hcs & Hend)|Hall]].
  - destruct (strings !! chunk_key name 0) as [c|] eqn:E.
    + right. intros i Hi. replace i with 0 by lia. by rewrite E.
    + left. exists []. split_and!; [simpl; lia|done|done].
  - left. exists cs. split_and!; [lia|done|done].
  - destruct (strings !! chunk_key name (S b)) as [c|] eqn:E.
    + right. intros i Hi. destruct (decide (i = S b)) as [->|]; [by rewrite E|].
      apply Hall. lia.
    + left.
      assert (∃ cs, length cs = S b ∧
                ∀ i chunk, cs !! i = Some chunk → strings !! chunk_key name i = Some chunk)
        as (cs & Hlen & Hcs).
      { clear E. generalize (S b) (λ i (Hi : i < S b), Hall i (proj1 (Nat.lt_succ_r i b) Hi)).
        clear. intros k. induction k as [|k IH]; intros Hall.
        - by exists [].
        - destruct IH as (cs & Hlen & Hcs); [intros i Hi; apply Hall; lia|].
          destruct (Hall k) as [c Hc]; [lia|]. exists (cs ++ [c]). split.
          + rewrite length_app. simpl. lia.
          + intros i chunk [Hi|[Hi Hc']]%lookup_app_Some; [by apply Hcs|].
            apply list_lookup_singleton_Some in Hc' as [Hik ->].
            by replace i with k by lia. }
      exists cs. split_and!; [lia|done|by rewrite Hlen].
Qed.

(** The fuel [Big.fromBox] runs the loop with is enough: the loop ends at a
    missing index. *)
Lemma fromBox_loop_total name (strings : gmap string bytes) :
  ∃ cs, (∀ i chunk, cs !! i = Some chunk → strings !! chunk_key name i = Some chunk) ∧
        strings !! chunk_key name (length cs) = None ∧
        fromBox_loop (S (size strings)) name 0 [] strings =
        Some (if decide (cs = []) then strings else <[name := concat cs]> strings).
Proof.
  destruct (first_missing_index name strings (size strings))
    as [(cs & Hlen & Hcs & Hend)|Hall].
  - exists cs. split_and!; [done..|]. by apply (fromBox_loop_spec cs); [..|lia].
  - assert (S (size strings) ≤ size strings) as Hb; [|lia].
    apply (chunk_keys_bounded name). intros i Hi. apply Hall. lia.
Qed.

Lemma MAX_VALUE_LENGTH_pos : 0 < MAX_VALUE_LENGTH.
Proof. unfold MAX_VALUE_LENGTH. lia. Qed.

Lemma MAX_VALUE_LENGTH_gt_16 : 16 < MAX_VALUE_LENGTH.
Proof. unfold MAX_VALUE_LENGTH. lia. Qed.

Global Opaque MAX_VALUE_LENGTH.

Lemma ceil_div_three n : 16 < n → ceil_div (2 * n + 17) n = 3.
Proof.
  intros Hn. unfold ceil_div. symmetry.
  apply (Nat.div_unique _ _ 3 16); lia.
Qed.

Section CodecProperties.
Context {Obj : Type} `{Countable Obj}.

Implicit Types (fr : frame (Obj:=Obj)) (another_argument : IArgumentType (Obj:=Obj)).

(** What [Big.toBox] computes once the wrapped argument has stored its
    bytes under [name]. *)
Lemma Big_toBox_run another_argument name fr fr1 value :
  toBox another_argument name fr = (Returns tt, fr1) →
  strings fr1 !! name = Some value →
  toBox (Big another_argument) name fr =
  (Returns tt,
   set_strings (λ _, toBox_loop MAX_VALUE_LENGTH name value 0 (delete name (strings fr1))) fr1).
Proof.
  intros Hinner Hval. simpl. unfold Big_toBox, mbind, M_bind.
  rewrite Hinner. unfold strings_pop. rewrite Hval. done.
Qed.

Lemma Argument_toBox_run toString fromString name fr (obj : Obj) value e' :
  objects fr !! name = Some obj →
  toString obj (encoder fr) = (Returns value, e') →
  toBox (Argument toString fromString) name fr =
  (Returns tt, {| strings := <[name := value]> (strings fr);
                  objects := delete name (objects fr);
                  encoder := e' |}).
Proof.
  intros Hobj Hstr. simpl. unfold mbind, M_bind, objects_pop.
  rewrite Hobj. simpl. by rewrite Hstr.
Qed.

(** What [Big.fromBox] does before it delegates: the reassembly. *)
Lemma Big_fromBox_run another_argument name fr strings' :
  fromBox_loop (S (size (strings fr))) name 0 [] (strings fr) = Some strings' →
  fromBox (Big another_argument) name fr =
  fromBox another_argument name (set_strings (λ _, strings') fr).
Proof.
  intros Hloop. simpl. unfold Big_fromBox, mbind, M_bind. by rewrite Hloop.
Qed.

(** C4. For every argument name and every payload the wrapped argument
    serializes to [value], of length [L], [Big.toBox] removes the key
    [name] and stores, for each [i] below [k = ceil (L / MAX_VALUE_LENGTH)],
    the [i]-th slice of at most [MAX_VALUE_LENGTH] bytes under the key
    ["<name>.<i>"]; the slices are not empty, taken in index order they
    make up [value], and no other key of the dictionary changes. *)
Theorem Big_toBox_chunking another_argument name fr fr1 value :
  toBox another_argument name fr = (Returns tt, fr1) →
  strings fr1 !! name = Some value →
  ∃ fr2,
    toBox (Big another_argument) name fr = (Returns tt, fr2) ∧
    strings fr2 !! name = None ∧
    (∀ i, i < ceil_div (length value) MAX_VALUE_LENGTH →
       strings fr2 !! chunk_key name i = Some (slice MAX_VALUE_LENGTH value i) ∧
       0 < length (slice MAX_VALUE_LENGTH value i) ≤ MAX_VALUE_LENGTH) ∧
    concat (slice MAX_VALUE_LENGTH value
              <$> seq 0 (ceil_div (length value) MAX_VALUE_LENGTH)) = value ∧
    (∀ key, key ≠ name →
       (∀ i, i < ceil_div (length value) MAX_VALUE_LENGTH → key ≠ chunk_key name i) →
       strings fr2 !! key = strings fr1 !! key) ∧
    objects fr2 = objects fr1 ∧ encoder fr2 = encoder fr1.
Proof.
  intros Hinner Hval. eexists. split; [by apply Big_toBox_run|].
  pose proof MAX_VALUE_LENGTH_pos as Hmax.
  destruct (toBox_loop_spec MAX_VALUE_LENGTH name value 0
              (delete name (strings fr1)) Hmax) as [Ha Hb].
  simpl. split_and!; [| |by apply slices_concat| |done..].
  - rewrite Hb; [apply lookup_delete_eq|].
    intros i _ Heq. by apply (chunk_key_ne_name name (0 + i)).
  - intros i Hi. split; [by apply Ha|]. split; [|apply slice_length_le].
    pose proof (slice_nonempty _ _ _ Hmax Hi) as Hne.
    destruct (slice _ _ _); [done|simpl; lia].
  - intros key Hkey Hother. rewrite Hb by done. by apply lookup_delete_ne.
Qed.

End CodecProperties.

Section BigRoundTrip.
Context {Obj : Type} `{Countable Obj}.
Variable toString : Obj → M (CachingEncoder (Obj:=Obj)) bytes.
Variable fromString : bytes → outcome Obj.

Implicit Types (fr : frame (Obj:=Obj)).

Let wrapped := Argument toString fromString.

(** [Big.toBox] over a wrapped [Argument]. *)
Lemma Big_Argument_toBox_run name fr (obj : Obj) value e' :
  objects fr !! name = Some obj →
  toString obj (encoder fr) = (Returns value, e') →
  toBox (Big wrapped) name fr =
  (Returns tt,
   {| strings := toBox_loop MAX_VALUE_LENGTH name value 0 (delete name (strings fr));
      objects := delete name (objects fr);
      encoder := e' |}).
Proof.
  intros Hobj Hstr.
  rewrite (Big_toBox_run wrapped name fr _ value
             (Argument_toBox_run toString fromString name fr obj value e' Hobj Hstr)).
  - unfold set_strings. simpl. by rewrite delete_insert_eq.
  - simpl. apply lookup_insert_eq.
Qed.

(** The wrapped [Argument.fromBox] when the key is missing. *)
Lemma Argument_fromBox_missing name fr :
  strings fr !! name = None →
  fromBox wrapped name fr = (Raises KeyError, fr).
Proof. intros Hnone. simpl. unfold mbind, M_bind, strings_pop. by rewrite Hnone. Qed.

Lemma Argument_fromBox_run name fr value (obj : Obj) :
  strings fr !! name = Some value →
  fromString value = Returns obj →
  fromBox wrapped name fr =
  (Returns tt, {| strings := delete name (strings fr);
                  objects := <[name := obj]> (objects fr);
                  encoder := encoder fr |}).
Proof.
  intros Hval Hdec. simpl. unfold mbind, M_bind, strings_pop.
  rewrite Hval. simpl. by rewrite Hdec.
Qed.

(** C5, amended. For every payload the wrapped argument serializes to a
    non-empty [value], when the dictionary holds no stale chunk key at the
    index that follows the last chunk: [Big.fromBox] on the dictionary
    left by [Big.toBox] reads the chunks by index up to the first missing
    one, puts [value] back under [name], and the wrapped argument decodes
    it to the original object.  A value of [2 * MAX_VALUE_LENGTH + 17]
    bytes travels as the three chunks [.0], [.1], [.2]. *)
Theorem Big_roundtrip_nonempty name fr (obj : Obj) value e' :
  objects fr !! name = Some obj →
  toString obj (encoder fr) = (Returns value, e') →
  value ≠ [] →
  fromString value = Returns obj →
  strings fr !! chunk_key name (ceil_div (length value) MAX_VALUE_LENGTH) = None →
  ∃ fr1 fr2,
    toBox (Big wrapped) name fr = (Returns tt, fr1) ∧
    fromBox_loop (S (size (strings fr1))) name 0 [] (strings fr1)
      = Some (<[name := value]> (strings fr1)) ∧
    fromBox (Big wrapped) name fr1 = (Returns tt, fr2) ∧
    objects fr2 !! name = Some obj ∧
    strings fr2 = strings fr1 ∧
    (length value = 2 * MAX_VALUE_LENGTH + 17 →
       (∀ i, i < 3 → strings fr1 !! chunk_key name i
                     = Some (slice MAX_VALUE_LENGTH value i)) ∧
       strings fr1 !! chunk_key name 3 = None).
Proof.
  intros Hobj Hstr Hne Hdec Hstale.
  pose proof MAX_VALUE_LENGTH_pos as Hmax.
  assert (0 < length value) as Hpos by (destruct value; [done|simpl; lia]).
  set (k := ceil_div (length value) MAX_VALUE_LENGTH) in *.
  set (s1 := toBox_loop MAX_VALUE_LENGTH name value 0 (delete name (strings fr))).
  destruct (toBox_loop_spec MAX_VALUE_LENGTH name value 0
              (delete name (strings fr)) Hmax) as [Ha Hb].
  fold k in Ha, Hb. fold s1 in Ha, Hb.
  assert (s1 !! name = None) as Hname.
  { rewrite Hb; [apply lookup_delete_eq|].
    intros i _ Heq. by apply (chunk_key_ne_name name (0 + i)). }
  assert (s1 !! chunk_key name k = None) as Hend.
  { rewrite Hb.
    - rewrite lookup_delete_ne by (symmetry; apply chunk_key_ne_name). done.
    - intros i Hi Heq%chunk_key_inj. lia. }
  set (cs := slice MAX_VALUE_LENGTH value <$> seq 0 k).
  assert (length cs = k) as Hlen by (unfold cs; by rewrite length_fmap, length_seq).
  assert (∀ i chunk, cs !! i = Some chunk → s1 !! chunk_key name (0 + i) = Some chunk)
    as Hcs.
  { intros i chunk Hi. unfold cs in Hi. rewrite list_lookup_fmap in Hi.
    destruct (seq 0 k !! i) as [j|] eqn:Hj; [|done].
    apply lookup_seq in Hj as [-> Hik]. simpl in Hi. injection Hi as <-. by apply Ha. }
  assert (0 < k) as Hk.
  { by apply ceil_div_pos_iff. }
  assert (fromBox_loop (S (size s1)) name 0 [] s1 = Some (<[name := value]> s1)) as Hloop.
  { rewrite (fromBox_loop_spec cs); [| done | by rewrite Hlen | ].
    - rewrite decide_False by (intros Hnil; rewrite Hnil in Hlen; simpl in Hlen; lia).
      simpl. unfold cs, k. by rewrite slices_concat.
    - rewrite Hlen. apply Nat.lt_succ_r, (chunk_keys_bounded name).
      intros i Hi. exists (slice MAX_VALUE_LENGTH value i). by apply Ha. }
  set (fr1 := {| strings := s1; objects := delete name (objects fr); encoder := e' |}).
  exists fr1. eexists.
  split; [by apply (Big_Argument_toBox_run name fr obj value e')|].
  split; [done|]. split.
  { rewrite (Big_fromBox_run wrapped name fr1 _ Hloop).
    apply (Argument_fromBox_run name _ value obj); [|done].
    apply lookup_insert_eq. }
  split; [apply lookup_insert_eq|]. split.
  { cbn [strings set_strings]. rewrite delete_insert_eq. by apply delete_id. }
  intros HL. assert (k = 3) as Hk3.
  { unfold k. rewrite HL. apply ceil_div_three, MAX_VALUE_LENGTH_gt_16. }
  rewrite Hk3 in Ha, Hend. split; [|done]. intros i Hi. by apply Ha.
Qed.

(** C10. When the wrapped argument serializes the object to zero bytes,
    [Big.toBox] removes the key [name] and stores no chunk; [Big.fromBox]
    on that dictionary finds index 0 missing, leaves the dictionary as it
    is, without the key [name], and the wrapped argument's [fromBox]
    raises [KeyError]. *)
Theorem Big_empty_payload name fr (obj : Obj) e' :
  objects fr !! name = Some obj →
  toString obj (encoder fr) = (Returns [], e') →
  strings fr !! chunk_key name 0 = None →
  ∃ fr1,
    toBox (Big wrapped) name fr = (Returns tt, fr1) ∧
    strings fr1 = delete name (strings fr) ∧
    fromBox_loop (S (size (strings fr1))) name 0 [] (strings fr1) = Some (strings fr1) ∧
    strings fr1 !! name = None ∧
    fromBox (Big wrapped) name fr1 = (Raises KeyError, fr1).
Proof.
  intros Hobj Hstr Hstale.
  assert (toBox_loop MAX_VALUE_LENGTH name [] 0 (delete name (strings fr))
          = delete name (strings fr)) as Hnochunk.
  { apply toBox_loop_done. by destruct MAX_VALUE_LENGTH. }
  set (fr1 := {| strings := delete name (strings fr);
                 objects := delete name (objects fr); encoder := e' |}).
  assert (fromBox_loop (S (size (strings fr1))) name 0 [] (strings fr1)
          = Some (strings fr1)) as Hloop.
  { cbn [fromBox_loop strings fr1].
    rewrite lookup_delete_ne by (symmetry; apply chunk_key_ne_name).
    by rewrite Hstale. }
  exists fr1.
  split; [rewrite (Big_Argument_toBox_run name fr obj [] e') by done; by rewrite Hnochunk|].
  split_and!; [done|done|apply lookup_delete_eq|].
  rewrite (Big_fromBox_run wrapped name fr1 _ Hloop).
  apply Argument_fromBox_missing. apply lookup_delete_eq.
Qed.

End BigRoundTrip.

(** ** The monad *)

Lemma for_each_preserves {S A} (P : S → Prop) (body : A → M S unit) l s :
  (∀ x s, P s → P (snd (body x s))) → P s → P (snd (for_each l body s)).
Proof.
  intros Hbody. revert s. induction l as [|x l IH]; intros s Hs; [done|].
  simpl. unfold mbind, M_bind. specialize (Hbody x s Hs).
  destruct (body x s) as [[[]|e] s']; simpl in *; auto.
Qed.

Lemma for_each_related {S A} (R : S → S → Prop) `{!Reflexive R, !Transitive R}
    (body : A → M S unit) l s :
  (∀ x s, R s (snd (body x s))) → R s (snd (for_each l body s)).
Proof.
  intros Hbody. revert s. induction l as [|x l IH]; intros s; [done|].
  simpl. unfold mbind, M_bind. specialize (Hbody x s).
  destruct (body x s) as [[[]|e] s']; simpl in *; [|done].
  by etrans.
Qed.

(** ** The entries and the waiting Deferreds *)

Lemma inv_core_empty : inv_core ∅ ∅.
Proof. split; intros *; by rewrite lookup_empty. Qed.

(** A fired [Deferred] comes or changes its result. *)
Lemma inv_core_called ds cur d r :
  (∀ c cbs, ds !! d ≠ Some (Pending c cbs)) →
  inv_core ds cur → inv_core (<[d := Called r]> ds) cur.
Proof.
  intros Hd [Hp He]. split.
  - intros d' c cbs Hd'. destruct (decide (d' = d)) as [->|Hne].
    + by rewrite lookup_insert_eq in Hd'.
    + rewrite lookup_insert_ne in Hd' by done. eauto.
  - intros c d' b Hc. destruct (decide (d' = d)) as [->|Hne].
    + apply He in Hc. by apply Hd in Hc.
    + rewrite lookup_insert_ne by done. eauto.
Qed.

(** A command is sent on a connection that has none under way. *)
Lemma inv_core_sent ds cur d c :
  ds !! d = None → cur !! c = None →
  inv_core ds cur →
  inv_core (<[d := Pending c (chain c false)]> ds) (<[c := (d, false)]> cur).
Proof.
  intros Hd Hc [Hp He]. split.
  - intros d' c' cbs Hd'. destruct (decide (d' = d)) as [->|Hne].
    + rewrite lookup_insert_eq in Hd'. injection Hd' as <- <-.
      exists false. by rewrite lookup_insert_eq.
    + rewrite lookup_insert_ne in Hd' by done.
      destruct (Hp _ _ _ Hd') as (b & Hb & ->). exists b. split; [|done].
      rewrite lookup_insert_ne; [done|]. intros <-. by rewrite Hc in Hb.
  - intros c' d' b Hc'. destruct (decide (c' = c)) as [->|Hne].
    + rewrite lookup_insert_eq in Hc'. injection Hc' as <- <-.
      by rewrite lookup_insert_eq.
    + rewrite lookup_insert_ne in Hc' by done.
      rewrite lookup_insert_ne; [eauto|]. intros <-.
      apply He in Hc'. by rewrite Hd in Hc'.
Qed.

(** A follow-up is scheduled on the command under way. *)
Lemma inv_core_scheduled ds cur d c :
  cur !! c = Some (d, false) →
  inv_core ds cur →
  inv_core (alter (λ st, match st with
                         | Pending c' cbs => Pending c' (cbs ++ [resend c])
                         | Called r => Called r
                         end) d ds)
           (<[c := (d, true)]> cur).
Proof.
  intros Hc [Hp He]. pose proof (He _ _ _ Hc) as Hd. split.
  - intros d' c' cbs Hd'. destruct (decide (d' = d)) as [->|Hne].
    + rewrite lookup_alter_eq, Hd in Hd'. simpl in Hd'. injection Hd' as <- <-.
      exists true. by rewrite lookup_insert_eq.
    + rewrite lookup_alter_ne in Hd' by done.
      destruct (Hp _ _ _ Hd') as (b & Hb & ->). exists b. split; [|done].
      rewrite lookup_insert_ne; [done|]. intros <-. rewrite Hc in Hb. by simplify_eq.
  - intros c' d' b Hc'. destruct (decide (c' = c)) as [->|Hne].
    + rewrite lookup_insert_eq in Hc'. injection Hc' as <- <-.
      by rewrite lookup_alter_eq, Hd.
    + rewrite lookup_insert_ne in Hc' by done.
      rewrite lookup_alter_ne; [eauto|]. intros <-.
      apply He in Hc'. rewrite Hd in Hc'. by simplify_eq.
Qed.

(** The command under way on a connection is answered. *)
Lemma inv_core_answered ds cur d c b r :
  cur !! c = Some (d, b) →
  inv_core ds cur →
  inv_core (<[d := Called r]> ds) (delete c cur).
Proof.
  intros Hc [Hp He]. pose proof (He _ _ _ Hc) as Hd. split.
  - intros d' c' cbs Hd'. destruct (decide (d' = d)) as [->|Hne].
    + by rewrite lookup_insert_eq in Hd'.
    + rewrite lookup_insert_ne in Hd' by done.
      destruct (Hp _ _ _ Hd') as (b' & Hb & ->). exists b'. split; [|done].
      rewrite lookup_delete_ne; [done|]. intros <-. rewrite Hc in Hb. by simplify_eq.
  - intros c' d' b' Hc'. destruct (decide (c' = c)) as [->|Hne].
    + by rewrite lookup_delete_eq in Hc'.
    + rewrite lookup_delete_ne in Hc' by done.
      rewrite lookup_insert_ne; [eauto|]. intros <-.
      apply He in Hc'. rewrite Hd in Hc'. by simplify_eq.
Qed.

(** ** What the calls of the service leave alone *)

Section ServiceFrame.
Context {Obj : Type} `{Countable Obj} `{!WireCodec Obj}.
Context {ClusterState : Type} `{!Collaborators Obj ClusterState}.

Local Abbreviation World := (world (Obj:=Obj) (ClusterState:=ClusterState)).
Implicit Types (w : World) (ev : log_event Obj) (a : Action Obj) (cfg st : Obj).

Global Instance evolves_refl : Reflexive (evolves (Obj:=Obj) (ClusterState:=ClusterState)).
Proof. intros w. split; eauto. Qed.

Global Instance evolves_trans : Transitive (evolves (Obj:=Obj) (ClusterState:=ClusterState)).
Proof.
  intros w1 w2 w3 [] []. split; try congruence; try (by etrans).
  intros d r Hd. edestruct ev_called0 as [r' Hr']; eauto.
Qed.

Lemma evolving_ret {A} (x : A) : evolving (mret x : M World A).
Proof. intros w. done. Qed.

Lemma evolving_raise {A} e : evolving (raise e : M World A).
Proof. intros w. done. Qed.

Lemma evolving_bind {A B} (m : M World A) (f : A → M World B) :
  evolving m → (∀ x, evolving (f x)) → evolving (m ≫= f).
Proof.
  intros Hm Hf w. unfold mbind, M_bind. specialize (Hm w).
  destruct (m w) as [[a|e] w']; simpl in *; [|done].
  etrans; [done|]. apply Hf.
Qed.

Lemma evolving_for_each {A} (l : list A) (body : A → M World unit) :
  (∀ x, evolving (body x)) → evolving (for_each l body).
Proof. intros Hbody w. apply (for_each_related evolves). intros x s. apply Hbody. Qed.

Lemma evolves_log w f : evolves w (set_eliot_log (λ l, l ++ f) w).
Proof. split; simpl; eauto. by apply prefix_app_r. Qed.

Lemma evolves_encoder w e : evolves w (set_caching_encoder e w).
Proof. split; simpl; eauto. Qed.

Lemma evolves_current w f : evolves w (set_current_command f w).
Proof. split; simpl; eauto. Qed.

Lemma evolving_log ev : evolving (log ev : M World unit).
Proof. intros w. apply evolves_log. Qed.

Lemma evolving_with_action {A} a (block : M World A) :
  evolving block → evolving (with_action a block).
Proof.
  intros Hblock w. unfold with_action.
  specialize (Hblock (snd (log (started a) w))).
  destruct (block _) as [[v|e] w']; simpl in *;
    (etrans; [apply evolves_log|]; etrans; [done|]; apply evolves_log).
Qed.

Lemma evolving_with_cache {A} (block : M World A) :
  evolving block → evolving (with_cache _caching_encoder set_caching_encoder block).
Proof.
  intros Hblock w. unfold with_cache.
  specialize (Hblock (set_caching_encoder (snd (cache_enter (_caching_encoder w))) w)).
  destruct (block _) as [[v|e] w']; simpl in *;
    (etrans; [apply evolves_encoder|]; etrans; [done|]); [apply evolves_encoder|done].
Qed.

Lemma evolving_del_current_command c :
  evolving (del_current_command c : M World unit).
Proof.
  intros w. unfold del_current_command.
  destruct (_ !! c); simpl; [apply evolves_current|done].
Qed.

Lemma evolves_run_callback_now cb r w : evolves w (snd (run_callback_now cb r w)).
Proof.
  destruct cb as [agent| |c|c], r as [|e]; simpl; try done; try apply evolves_log.
  pose proof (evolving_del_current_command c w) as Hdel.
  by destruct (del_current_command c w) as [[[]|e] w'].
Qed.

Lemma evolving_addCallback d cb : evolving (addCallback d cb : M World unit).
Proof.
  intros w. unfold addCallback.
  destruct (deferreds w !! d) as [[c cbs|r]|] eqn:Hd; simpl; [| |done].
  - split; simpl; eauto. intros d' r Hd'. exists r.
    rewrite lookup_insert_ne; [done|]. intros <-. by rewrite Hd in Hd'.
  - pose proof (evolves_run_callback_now cb r w) as Hrun.
    destruct (run_callback_now cb r w) as [r' w']. simpl in *.
    etrans; [done|]. split; simpl; eauto. intros d' r0 Hd'.
    destruct (decide (d' = d)) as [->|Hne].
    + rewrite lookup_insert_eq. eauto.
    + rewrite lookup_insert_ne by done. eauto.
Qed.

Lemma evolving_addCallback_resend d c :
  evolving (addCallback_resend d c : M World unit).
Proof.
  intros w. split; simpl; eauto. intros d' r Hd'. exists r.
  destruct (decide (d' = d)) as [->|Hne].
  - by rewrite lookup_alter_eq, Hd'.
  - by rewrite lookup_alter_ne.
Qed.

Lemma evolving_callRemote c cfg st a : evolving (callRemote c cfg st a).
Proof.
  intros w. unfold callRemote.
  destruct (makeArguments cfg st a _) as [[[]|e] fr']; [|apply evolves_encoder].
  set (w1 := set_caching_encoder (encoder fr') w).
  assert (evolves w w1) as Hw1 by apply evolves_encoder.
  assert (∀ ds, evolves w1 (set_deferreds <[fresh (dom (deferreds w1)) := ds]> w1)) as Hnew.
  { intros ds. split; simpl; eauto. intros d r Hd. exists r.
    rewrite lookup_insert_ne; [done|]. intros <-.
    apply (is_fresh (dom (deferreds w))). apply elem_of_dom. eauto. }
  destruct (transport w1 c); simpl.
  - etrans; [done|]. etrans; [apply Hnew|].
    split; simpl; eauto. by apply prefix_app_r.
  - etrans; [done|]. apply Hnew.
  - done.
Qed.

Lemma evolving_update_connection c cfg st a : evolving (_update_connection c cfg st a).
Proof.
  unfold _update_connection.
  apply evolving_bind; [apply evolving_log|]. intros _.
  apply evolving_bind; [apply evolving_callRemote|]. intros d.
  apply evolving_bind; [apply evolving_addCallback|]. intros _.
  apply evolving_bind; [apply evolving_addCallback|]. intros _.
  apply evolving_ret.
Qed.

Lemma evolving_send_state_to_connection cfg st c :
  evolving (send_state_to_connection cfg st c).
Proof.
  intros w. unfold send_state_to_connection.
  destruct (_ !! c) as [[d []]|]; [done| |].
  - apply evolving_bind; [apply evolving_addCallback_resend|]. intros _ w'.
    apply evolves_current.
  - apply evolving_bind.
    { intros w'. unfold load_global_action. by destruct (global_action w'). }
    intros a. apply evolving_bind; [apply evolving_update_connection|]. intros d.
    apply evolving_bind; [intros w'; apply evolves_current|]. intros _.
    apply evolving_addCallback.
Qed.

Lemma evolving_send_state_to_connections l : evolving (_send_state_to_connections l).
Proof.
  intros w. unfold _send_state_to_connections.
  apply evolving_with_action, evolving_with_cache, evolving_for_each.
  intros c. apply evolving_send_state_to_connection.
Qed.

End ServiceFrame.

(** ** One connection of the loop *)

Section ServiceSteps.
Context {Obj : Type} `{Countable Obj} `{!WireCodec Obj}.
Context {ClusterState : Type} `{!Collaborators Obj ClusterState}.

Local Abbreviation World := (world (Obj:=Obj) (ClusterState:=ClusterState)).
Implicit Types (w : World) (ev : log_event Obj) (a : Action Obj) (cfg st : Obj).

Lemma fresh_deferred_unused w : deferreds w !! fresh (dom (deferreds w)) = None.
Proof. apply not_elem_of_dom, is_fresh. Qed.

(** The name [action] is not bound: nothing is sent. *)
Lemma idle_unbound cfg st c w :
  _current_command_for_connection w !! c = None →
  global_action w = None →
  send_state_to_connection cfg st c w = (Raises NameError, w).
Proof.
  intros Hcur Hga. unfold send_state_to_connection. rewrite Hcur.
  unfold mbind, M_bind, load_global_action. by rewrite Hga.
Qed.

(** The arguments do not serialize: [callRemote] raises. *)
Lemma idle_unserializable cfg st c w a e fr' :
  _current_command_for_connection w !! c = None →
  global_action w = Some a →
  makeArguments cfg st (LOG_SEND_TO_AGENT c) (args_frame cfg st (_caching_encoder w))
    = (Raises e, fr') →
  ∃ w', send_state_to_connection cfg st c w = (Raises e, w') ∧
    deferreds w' = deferreds w ∧
    _current_command_for_connection w' = _current_command_for_connection w ∧
    wire w' = wire w.
Proof.
  intros Hcur Hga Hmk. unfold send_state_to_connection. rewrite Hcur.
  unfold mbind, M_bind, load_global_action. rewrite Hga.
  unfold _update_connection, mbind, M_bind. simpl.
  unfold callRemote. simpl. rewrite Hmk. by eexists.
Qed.

(** The transport raises. *)
Lemma idle_failing cfg st c w a e fr' :
  _current_command_for_connection w !! c = None →
  global_action w = Some a →
  makeArguments cfg st (LOG_SEND_TO_AGENT c) (args_frame cfg st (_caching_encoder w))
    = (Returns tt, fr') →
  transport w c = Failing e →
  ∃ w', send_state_to_connection cfg st c w = (Raises e, w') ∧
    deferreds w' = deferreds w ∧
    _current_command_for_connection w' = _current_command_for_connection w ∧
    wire w' = wire w.
Proof.
  intros Hcur Hga Hmk Hnet. unfold send_state_to_connection. rewrite Hcur.
  unfold mbind, M_bind, load_global_action. rewrite Hga.
  unfold _update_connection, mbind, M_bind. simpl.
  unfold callRemote. simpl. rewrite Hmk. simpl. rewrite Hnet. by eexists.
Qed.

(** The connection is lost: the [Deferred] comes fired with the failure,
    which is swallowed, and the entry goes as soon as it is stored. *)
Lemma idle_lost cfg st c w a reason fr' :
  _current_command_for_connection w !! c = None →
  global_action w = Some a →
  makeArguments cfg st (LOG_SEND_TO_AGENT c) (args_frame cfg st (_caching_encoder w))
    = (Returns tt, fr') →
  transport w c = Lost reason →
  ∃ w' d, send_state_to_connection cfg st c w = (Returns tt, w') ∧
    deferreds w !! d = None ∧
    deferreds w' = <[d := Called Success]> (deferreds w) ∧
    _current_command_for_connection w' = _current_command_for_connection w ∧
    wire w' = wire w.
Proof.
  intros Hcur Hga Hmk Hnet. unfold send_state_to_connection. rewrite Hcur.
  unfold mbind, M_bind, load_global_action. rewrite Hga.
  unfold _update_connection, mbind, M_bind. simpl.
  unfold callRemote. simpl. rewrite Hmk. simpl. rewrite Hnet. simpl.
  unfold addCallback. simpl. rewrite lookup_insert_eq. simpl.
  rewrite lookup_insert_eq. simpl. rewrite lookup_insert_eq. simpl.
  unfold del_current_command. simpl. rewrite lookup_insert_eq. simpl.
  eexists _, (fresh (dom (deferreds w))). split; [reflexivity|]. simpl.
  split_and!; [apply fresh_deferred_unused|by rewrite !insert_insert_eq| |done].
  rewrite delete_insert_eq. by apply delete_id.
Qed.

(** The command is written to the connection. *)
Lemma idle_connected cfg st c w a fr' :
  _current_command_for_connection w !! c = None →
  global_action w = Some a →
  makeArguments cfg st (LOG_SEND_TO_AGENT c) (args_frame cfg st (_caching_encoder w))
    = (Returns tt, fr') →
  transport w c = Connected →
  ∃ w' d, send_state_to_connection cfg st c w = (Returns tt, w') ∧
    deferreds w !! d = None ∧
    deferreds w' = <[d := Pending c (chain c false)]> (deferreds w) ∧
    _current_command_for_connection w'
      = <[c := (d, false)]> (_current_command_for_connection w) ∧
    wire w' = wire w ++ [{| msg_connection := c; msg_configuration := cfg;
                            msg_state := st; msg_box := strings fr' |}].
Proof.
  intros Hcur Hga Hmk Hnet. unfold send_state_to_connection. rewrite Hcur.
  unfold mbind, M_bind, load_global_action. rewrite Hga.
  unfold _update_connection, mbind, M_bind. simpl.
  unfold callRemote. simpl. rewrite Hmk. simpl. rewrite Hnet. simpl.
  unfold addCallback. simpl. rewrite lookup_insert_eq. simpl.
  rewrite lookup_insert_eq. simpl. rewrite lookup_insert_eq. simpl.
  eexists _, (fresh (dom (deferreds w))). split; [reflexivity|]. simpl.
  split_and!; [apply fresh_deferred_unused|by rewrite !insert_insert_eq|done..].
Qed.

(** A command is under way and a follow-up is already scheduled. *)
Lemma busy_scheduled cfg st c w d :
  _current_command_for_connection w !! c = Some (d, true) →
  send_state_to_connection cfg st c w = (Returns tt, w).
Proof. intros Hcur. unfold send_state_to_connection. by rewrite Hcur. Qed.

(** A command is under way: the follow-up is scheduled. *)
Lemma busy_unscheduled cfg st c w d :
  _current_command_for_connection w !! c = Some (d, false) →
  ∃ w', send_state_to_connection cfg st c w = (Returns tt, w') ∧
    deferreds w' = alter (λ ds, match ds with
                                | Pending c' cbs => Pending c' (cbs ++ [resend c])
                                | Called r => Called r
                                end) d (deferreds w) ∧
    _current_command_for_connection w'
      = <[c := (d, true)]> (_current_command_for_connection w) ∧
    wire w' = wire w.
Proof.
  intros Hcur. unfold send_state_to_connection. rewrite Hcur. by eexists.
Qed.

Lemma send_state_to_connection_inv cfg st c w :
  service_inv w → service_inv (snd (send_state_to_connection cfg st c w)).
Proof.
  intros Hinv. unfold service_inv in *.
  destruct (_current_command_for_connection w !! c) as [[d [|]]|] eqn:Hcur.
  - by rewrite (busy_scheduled cfg st c w d).
  - destruct (busy_unscheduled cfg st c w d Hcur) as (w' & Hrun & Hds & Hcur' & _).
    rewrite Hrun. simpl. rewrite Hds, Hcur'. by apply inv_core_scheduled.
  - destruct (global_action w) as [a|] eqn:Hga; [|by rewrite idle_unbound].
    destruct (makeArguments cfg st (LOG_SEND_TO_AGENT c)
                (args_frame cfg st (_caching_encoder w))) as [[[]|e] fr'] eqn:Hmk.
    + destruct (transport w c) as [|reason|e] eqn:Hnet.
      * destruct (idle_connected cfg st c w a fr')
          as (w' & d & Hrun & Hd & Hds & Hcur' & _); [done..|].
        rewrite Hrun. simpl. rewrite Hds, Hcur'. by apply inv_core_sent.
      * destruct (idle_lost cfg st c w a reason fr')
          as (w' & d & Hrun & Hd & Hds & Hcur' & _); [done..|].
        rewrite Hrun. simpl. rewrite Hds, Hcur'.
        apply inv_core_called; [|done]. intros c' cbs. by rewrite Hd.
      * destruct (idle_failing cfg st c w a e fr') as (w' & Hrun & Hds & Hcur' & _);
          [done..|]. rewrite Hrun. simpl. by rewrite Hds, Hcur'.
    + destruct (idle_unserializable cfg st c w a e fr') as (w' & Hrun & Hds & Hcur' & _);
        [done..|]. rewrite Hrun. simpl. by rewrite Hds, Hcur'.
Qed.

(** One turn of the loop leaves the entries of the other connections
    alone, whatever its outcome. *)
Lemma send_state_to_connection_other cfg st x w c :
  c ≠ x →
  _current_command_for_connection (snd (send_state_to_connection cfg st x w)) !! c
  = _current_command_for_connection w !! c.
Proof.
  intros Hne.
  destruct (_current_command_for_connection w !! x) as [[d [|]]|] eqn:Hcur.
  - by rewrite (busy_scheduled cfg st x w d).
  - destruct (busy_unscheduled cfg st x w d Hcur) as (w' & Hrun & _ & Hcur' & _).
    rewrite Hrun. simpl. rewrite Hcur'. by apply lookup_insert_ne.
  - destruct (global_action w) as [a|] eqn:Hga; [|by rewrite idle_unbound].
    destruct (makeArguments cfg st (LOG_SEND_TO_AGENT x)
                (args_frame cfg st (_caching_encoder w))) as [[[]|e] fr'] eqn:Hmk.
    + destruct (transport w x) as [|reason|e] eqn:Hnet.
      * destruct (idle_connected cfg st x w a fr')
          as (w' & d & Hrun & _ & _ & Hcur' & _); [done..|].
        rewrite Hrun. simpl. rewrite Hcur'. by apply lookup_insert_ne.
      * destruct (idle_lost cfg st x w a reason fr')
          as (w' & d & Hrun & _ & _ & Hcur' & _); [done..|].
        rewrite Hrun. simpl. by rewrite Hcur'.
      * destruct (idle_failing cfg st x w a e fr') as (w' & Hrun & _ & Hcur' & _);
          [done..|]. rewrite Hrun. simpl. by rewrite Hcur'.
    + destruct (idle_unserializable cfg st x w a e fr') as (w' & Hrun & _ & Hcur' & _);
        [done..|]. rewrite Hrun. simpl. by rewrite Hcur'.
Qed.

Lemma send_state_to_connections_other l w c :
  c ∉ l →
  _current_command_for_connection (snd (_send_state_to_connections l w)) !! c
  = _current_command_for_connection w !! c.
Proof.
  intros Hc. unfold _send_state_to_connections, with_action, with_cache.
  match goal with |- context [for_each l ?body ?w0] =>
    assert (_current_command_for_connection (snd (for_each l body w0)) !! c
            = _current_command_for_connection w !! c) as Hloop;
    [change (_current_command_for_connection w)
       with (_current_command_for_connection w0); generalize w0|]
  end.
  { induction l as [|x l IH]; intros w0; [done|].
    apply not_elem_of_cons in Hc as [Hx Hl]. simpl. unfold mbind, M_bind.
    pose proof (send_state_to_connection_other
                  (configuration w) (as_deployment (cluster_state w)) x w0 c Hx) as Hx'.
    destruct (send_state_to_connection _ _ x w0) as [[[]|e] w1]; simpl in *; [|done].
    by rewrite IH. }
  simpl in *. by destruct (for_each _ _ _) as [[[]|e] w'].
Qed.

(** Entering and leaving the cache scope, starting and finishing an action
    do not touch the entries or the [Deferred]s. *)
Lemma send_state_to_connections_inv l w :
  service_inv w → service_inv (snd (_send_state_to_connections l w)).
Proof.
  intros Hinv. unfold _send_state_to_connections, with_action, with_cache.
  match goal with |- context [for_each l ?body ?w0] =>
    assert (service_inv (snd (for_each l body w0))) as Hloop
  end.
  { apply (for_each_preserves service_inv); [|done].
    intros c s. apply send_state_to_connection_inv. }
  simpl in *. by destruct (for_each _ _ _) as [[[]|e] w'].
Qed.

End ServiceSteps.

(** ** The invariant of the fan-out *)

Section ServiceInvariant.
Context {Obj : Type} `{Countable Obj} `{!WireCodec Obj}.
Context {ClusterState : Type} `{!Collaborators Obj ClusterState}.

Local Abbreviation World := (world (Obj:=Obj) (ClusterState:=ClusterState)).
Implicit Types (w : World) (ev : log_event Obj) (a : Action Obj) (cfg st : Obj).

Lemma preserving_bind {A B} (m : M World A) (f : A → M World B) :
  preserving m → (∀ x, preserving (f x)) → preserving (m ≫= f).
Proof.
  intros Hm Hf w Hw. unfold mbind, M_bind. specialize (Hm w Hw).
  destruct (m w) as [[x|e] w']; simpl in *; [|done]. by apply Hf.
Qed.

Lemma preserving_for_each {A} (l : list A) (body : A → M World unit) :
  (∀ x, preserving (body x)) → preserving (for_each l body).
Proof.
  intros Hbody w Hw. apply (for_each_preserves service_inv); [|done].
  intros x s. apply Hbody.
Qed.

Lemma preserving_with_action {A} a (block : M World A) :
  preserving block → preserving (with_action a block).
Proof.
  intros Hblock w Hw. unfold with_action.
  specialize (Hblock (snd (log (started a) w)) Hw).
  by destruct (block _) as [[v|e] w'].
Qed.

Lemma preserving_send_state_to_connections l :
  preserving (_send_state_to_connections l : M World unit).
Proof. intros w. apply send_state_to_connections_inv. Qed.

Lemma preserving_connected c : preserving (connected c : M World unit).
Proof.
  apply preserving_with_action, preserving_bind; [by intros w|].
  intros _. apply preserving_send_state_to_connections.
Qed.

Lemma preserving_disconnected c : preserving (disconnected c : M World unit).
Proof. intros w Hw. unfold disconnected. by destruct (decide _). Qed.

Lemma preserving_node_changed source changes :
  preserving (node_changed source changes : M World unit).
Proof.
  apply preserving_bind; [by intros w|]. intros _ w.
  apply send_state_to_connections_inv.
Qed.

Lemma preserving_configuration_save cfg :
  preserving (configuration_save cfg : M World unit).
Proof.
  apply preserving_bind; [by intros w|]. intros _ w.
  apply preserving_for_each. intros [] w'. apply send_state_to_connections_inv.
Qed.

Lemma preserving_stopService : preserving (stopService : M World unit).
Proof.
  apply preserving_bind; [by intros w|]. intros _ w.
  apply preserving_for_each. by intros c w'.
Qed.

(** The callbacks of an answered command, up to [finished_update]. *)
Lemma run_callbacks_answered c d b r w :
  _current_command_for_connection w !! c = Some (d, b) →
  run_callbacks [ActionFinish c; SwallowErr; finished_update c] r w =
  (Success, set_current_command (delete c)
              (snd (log (finished (LOG_SEND_TO_AGENT c) r) w))).
Proof.
  intros Hcur. simpl. unfold del_current_command. simpl. by rewrite Hcur.
Qed.

Lemma run_callbacks_app cbs1 cbs2 r w :
  run_callbacks (cbs1 ++ cbs2) r w =
  (let '(r', w') := run_callbacks cbs1 r w in run_callbacks cbs2 r' w').
Proof.
  revert r w. induction cbs1 as [|cb cbs1 IH]; intros r w; simpl.
  - done.
  - destruct (run_callback cb r w) as [r' w']. apply IH.
Qed.

Lemma fire_inv d r w : service_inv w → service_inv (fire d r w).
Proof.
  intros Hinv. unfold fire.
  destruct (deferreds w !! d) as [[c cbs|r0]|] eqn:Hd; [|done..].
  destruct (proj1 Hinv d c cbs Hd) as (b & Hcur & ->).
  set (w1 := set_deferreds <[d := Called r]> w).
  set (w2 := set_current_command (delete c)
               (snd (log (finished (LOG_SEND_TO_AGENT c) r) w1))).
  assert (service_inv w2) as Hw2.
  { unfold service_inv, w2, w1. simpl. by apply (inv_core_answered _ _ d c b). }
  assert (deferreds w2 !! d = Some (Called r)) as Hd2.
  { unfold w2, w1. simpl. apply lookup_insert_eq. }
  unfold chain. rewrite run_callbacks_app.
  rewrite (run_callbacks_answered c d b r w1) by done. fold w2.
  clearbody w2. clear w1. destruct b; simpl.
  - pose proof (send_state_to_connections_inv [c] w2 Hw2) as Hw3.
    pose proof (evolving_send_state_to_connections [c] w2) as Hev.
    destruct (_send_state_to_connections [c] w2) as [[[]|e] w3]; simpl in *.
    + unfold service_inv. simpl. apply inv_core_called; [|done].
      intros c' cbs'. destruct (ev_called _ _ Hev d r Hd2) as [r' ->]. done.
    + unfold service_inv. simpl. apply inv_core_called; [|done].
      intros c' cbs'. destruct (ev_called _ _ Hev d r Hd2) as [r' ->]. done.
  - unfold service_inv. simpl. apply inv_core_called; [|done].
    intros c' cbs'. by rewrite Hd2.
Qed.

(** An answer, whatever it is, completes the command and leaves the
    entries of the other connections alone. *)
Lemma fire_completes c d b r w :
  service_inv w →
  _current_command_for_connection w !! c = Some (d, b) →
  (∃ r', deferreds (fire d r w) !! d = Some (Called r')) ∧
  (∀ c', c' ≠ c → _current_command_for_connection (fire d r w) !! c'
                  = _current_command_for_connection w !! c').
Proof.
  intros Hinv Hcur. pose proof (proj2 Hinv c d b Hcur) as Hd.
  unfold fire. rewrite Hd.
  set (w1 := set_deferreds <[d := Called r]> w).
  unfold chain. rewrite run_callbacks_app.
  rewrite (run_callbacks_answered c d b r w1) by done.
  set (w2 := set_current_command (delete c)
               (snd (log (finished (LOG_SEND_TO_AGENT c) r) w1))).
  assert (∀ c', c' ≠ c → _current_command_for_connection w2 !! c'
                         = _current_command_for_connection w !! c') as Hother.
  { intros c' Hc'. unfold w2, w1. simpl. by apply lookup_delete_ne. }
  clearbody w2. clear w1. destruct b; simpl.
  - pose proof (send_state_to_connections_other [c] w2) as Hsend.
    destruct (_send_state_to_connections [c] w2) as [[[]|e] w3]; simpl in *.
    + split; [eexists; apply lookup_insert_eq|]. intros c' Hc'.
      rewrite Hsend, Hother; [done..|]. by intros ->%list_elem_of_singleton.
    + split; [eexists; apply lookup_insert_eq|]. intros c' Hc'.
      rewrite Hsend, Hother; [done..|]. by intros ->%list_elem_of_singleton.
  - split; [eexists; apply lookup_insert_eq|done].
Qed.

Lemma preserving_Pinger_start c : preserving (Pinger_start c : M World unit).
Proof. by intros w Hw. Qed.

Lemma preserving_Pinger_stop c : preserving (Pinger_stop c : M World unit).
Proof. intros w Hw. unfold Pinger_stop. by destruct (_ !! c) as [[]|]. Qed.

Lemma preserving_connectionMade c : preserving (connectionMade c : M World unit).
Proof.
  apply preserving_bind; [apply preserving_connected|].
  intros _. apply preserving_Pinger_start.
Qed.

Lemma preserving_connectionLost c reason :
  preserving (connectionLost c reason : M World unit).
Proof.
  apply preserving_bind; [by intros w|]. intros _.
  apply preserving_bind;
    [|intros _; apply preserving_bind;
        [apply preserving_disconnected|intros _; apply preserving_Pinger_stop]].
  intros w Hw. simpl. induction (outstanding c w) as [|d ds IH]; simpl; [done|].
  by apply fire_inv.
Qed.

Lemma step_inv e w : service_inv w → service_inv (step e w).
Proof.
  intros Hw. destruct e; simpl.
  - by apply preserving_connectionMade.
  - by apply preserving_connectionLost.
  - by apply fire_inv.
  - by apply preserving_node_changed.
  - by apply preserving_configuration_save.
  - done.
  - done.
  - by apply preserving_stopService.
Qed.

Lemma reachable_inv w : reachable w → service_inv w.
Proof.
  induction 1 as [cluster cfg binding net|e w _ IH].
  - apply inv_core_empty.
  - by apply step_inv.
Qed.

(** The [Deferred] of an entry has not fired, and carries the chain of the
    entry. *)
Lemma entries_pending w c d b :
  reachable w →
  _current_command_for_connection w !! c = Some (d, b) →
  deferreds w !! d = Some (Pending c (chain c b)).
Proof. intros Hw%reachable_inv Hcur. by apply (proj2 Hw). Qed.

Lemma service_inv_in_flight w c d :
  service_inv w →
  in_flight w d c ↔ ∃ b, _current_command_for_connection w !! c = Some (d, b).
Proof.
  intros [Hp He]. split.
  - intros [cbs Hd]. destruct (Hp _ _ _ Hd) as (b & Hb & _). eauto.
  - intros [b Hb]. eexists. eauto.
Qed.

(** C3. In every state the service reaches, however the name [action] is
    bound: a connection has at most one [ClusterStatusCommand] in flight;
    it has an entry in [_current_command_for_connection] exactly while a
    command is in flight on it; and the loop sends nothing on a connection
    that has an entry. *)
Theorem at_most_one_command_in_flight w :
  reachable w →
  at_most_one_in_flight w ∧
  (∀ c d, in_flight w d c ↔ ∃ b, _current_command_for_connection w !! c = Some (d, b)) ∧
  (∀ cfg st c, is_Some (_current_command_for_connection w !! c) →
     wire (snd (send_state_to_connection cfg st c w)) = wire w).
Proof.
  intros Hw%reachable_inv. split_and!.
  - intros c d1 d2 [b1 H1]%service_inv_in_flight [b2 H2]%service_inv_in_flight; [|done..].
    rewrite H1 in H2. by injection H2.
  - intros c d. by apply service_inv_in_flight.
  - intros cfg st c [[d [|]] Hcur].
    + by rewrite (busy_scheduled cfg st c w d).
    + destruct (busy_unscheduled cfg st c w d Hcur) as (w' & -> & _ & _ & Hwire). done.
Qed.

End ServiceInvariant.

(** ** The codec on concrete commands *)

(** The configuration 3 is written as four bytes: one chunk. *)
Lemma Big_toBox_chunking_witness :
  let wrapped := SerializableArgument (Obj:=nat) is_Deployment in
  let fr := Example.one_argument 3 in
  let fr1 := snd (toBox wrapped "configuration" fr) in
  let value := replicate 4 "*"%byte in
  toBox wrapped "configuration" fr = (Returns tt, fr1) ∧
  strings fr1 !! "configuration" = Some value ∧
  ∃ fr2, toBox (Big wrapped) "configuration" fr = (Returns tt, fr2) ∧
         strings fr2 !! "configuration" = None ∧
         strings fr2 !! "configuration.0" = Some value.
Proof.
  intros wrapped fr fr1 value.
  assert (toBox wrapped "configuration" fr = (Returns tt, fr1)) as H1
    by (vm_compute; reflexivity).
  assert (strings fr1 !! "configuration" = Some value) as H2
    by (vm_compute; reflexivity).
  split; [exact H1|]. split; [exact H2|].
  destruct (Big_toBox_chunking wrapped "configuration" fr fr1 value H1 H2)
    as (fr2 & Hrun & Hname & Hchunks & _).
  exists fr2. split; [exact Hrun|]. split; [exact Hname|].
  destruct (Hchunks 0) as [Hchunk _].
  - vm_compute. lia.
  - refine (eq_trans Hchunk _). vm_compute. reflexivity.
Defined.

(** C5, as stated, fails on a payload the wrapped argument accepts and
    writes as zero bytes: [Big.toBox] returns, and [Big.fromBox] on the
    dictionary it leaves raises [KeyError] instead of giving the object
    back, though the wrapped argument alone gives it back.  It also fails
    when the dictionary holds a key ["configuration.1"] beforehand: the
    configuration 3, one chunk, comes back as 4. *)
Lemma Big_roundtrip_fails :
  (let fr1 : frame (Obj:=nat) :=
     {| strings := ∅; objects := ∅; encoder := CachingEncoder_init |} in
   toBox (Big Example.empty_argument) "configuration" (Example.one_argument 0)
     = (Returns tt, fr1) ∧
   fromBox Example.empty_argument "configuration"
     (snd (toBox Example.empty_argument "configuration" (Example.one_argument 0)))
     = (Returns tt, {| strings := ∅; objects := {["configuration" := 0]};
                       encoder := CachingEncoder_init |}) ∧
   fromBox (Big Example.empty_argument) "configuration" fr1 = (Raises KeyError, fr1)) ∧
  (let wrapped := SerializableArgument (Obj:=nat) is_Deployment in
   let fr1 := snd (toBox (Big wrapped) "configuration" (Example.stale_chunk 3)) in
   fst (toBox (Big wrapped) "configuration" (Example.stale_chunk 3)) = Returns tt ∧
   fst (fromBox (Big wrapped) "configuration" fr1) = Returns tt ∧
   objects (snd (fromBox (Big wrapped) "configuration" fr1)) !! "configuration" = Some 4).
Proof. vm_compute. done. Qed.

(** The configuration 3 goes through [Big] and comes back. *)
Lemma Big_roundtrip_nonempty_witness :
  let toString := SerializableArgument_toString (Obj:=nat) is_Deployment in
  let fromString := SerializableArgument_fromString (Obj:=nat) is_Deployment in
  let fr := Example.one_argument 3 in
  let value := replicate 4 "*"%byte in
  objects fr !! "configuration" = Some 3 ∧
  toString 3 (encoder fr) = (Returns value, encoder fr) ∧
  value ≠ [] ∧
  fromString value = Returns 3 ∧
  strings fr !! chunk_key "configuration" (ceil_div (length value) MAX_VALUE_LENGTH) = None ∧
  ∃ fr1 fr2,
    toBox (Big (Argument toString fromString)) "configuration" fr = (Returns tt, fr1) ∧
    fromBox (Big (Argument toString fromString)) "configuration" fr1 = (Returns tt, fr2) ∧
    objects fr2 !! "configuration" = Some 3.
Proof.
  intros toString fromString fr value.
  assert (objects fr !! "configuration" = Some 3) as H1 by (vm_compute; reflexivity).
  assert (toString 3 (encoder fr) = (Returns value, encoder fr)) as H2
    by (vm_compute; reflexivity).
  assert (value ≠ []) as H3 by discriminate.
  assert (fromString value = Returns 3) as H4 by (vm_compute; reflexivity).
  assert (strings fr !! chunk_key "configuration"
            (ceil_div (length value) MAX_VALUE_LENGTH) = None) as H5
    by apply lookup_empty.
  split_and!; [exact H1|exact H2|exact H3|exact H4|exact H5|].
  destruct (Big_roundtrip_nonempty toString fromString "configuration" fr 3 value
              (encoder fr) H1 H2 H3 H4 H5)
    as (fr1 & fr2 & Hto & _ & Hfrom & Hobj & _).
  exists fr1, fr2. split; [exact Hto|]. split; [exact Hfrom|exact Hobj].
Defined.

(** An object written as zero bytes does not come back. *)
Lemma Big_empty_payload_witness :
  let fr := Example.one_argument 0 in
  objects fr !! "configuration" = Some 0 ∧
  strings fr !! chunk_key "configuration" 0 = None ∧
  ∃ fr1, toBox (Big Example.empty_argument) "configuration" fr = (Returns tt, fr1) ∧
         fromBox (Big Example.empty_argument) "configuration" fr1 = (Raises KeyError, fr1).
Proof.
  intros fr.
  assert (objects fr !! "configuration" = Some 0) as H1 by (vm_compute; reflexivity).
  assert (strings fr !! chunk_key "configuration" 0 = None) as H2 by apply lookup_empty.
  split; [exact H1|]. split; [exact H2|].
  destruct (Big_empty_payload (λ _ e, (Returns [], e)) (λ _, Returns 0)
              "configuration" fr 0 (encoder fr) H1 eq_refl H2)
    as (fr1 & Hto & _ & _ & _ & Hfrom).
  exists fr1. split; [exact Hto|exact Hfrom].
Defined.

(** ** Connecting, broadcasting, stopping *)

Section ServiceClaims.
Context {Obj : Type} `{Countable Obj} `{!WireCodec Obj}.
Context {ClusterState : Type} `{!Collaborators Obj ClusterState}.

Local Abbreviation World := (world (Obj:=Obj) (ClusterState:=ClusterState)).
Implicit Types (w : World) (ev : log_event Obj) (a : Action Obj) (cfg st : Obj).

Lemma encode_returns (obj : Obj) enc : ∃ v enc', encode obj enc = (Returns v, enc').
Proof.
  unfold encode. destruct (_cache enc) as [cache|]; [|by eexists _, _].
  destruct (cache !! obj); by eexists _, _.
Qed.

(** A [Deployment] and a [DeploymentState] serialize, whatever the cache. *)
Lemma makeArguments_returns cfg st a enc :
  is_Deployment cfg = true → is_DeploymentState st = true →
  ∃ fr', makeArguments cfg st a (args_frame cfg st enc) = (Returns tt, fr').
Proof.
  intros Hcfg Hst. unfold makeArguments, mbind, M_bind.
  destruct (encode_returns cfg enc) as (v1 & e1 & He1).
  unfold ClusterStatusCommand_configuration, ClusterStatusCommand_state, SerializableArgument.
  rewrite (Big_Argument_toBox_run _ _ "configuration" _ cfg v1 e1);
    [|apply lookup_insert_eq|unfold SerializableArgument_toString; by rewrite Hcfg].
  destruct (encode_returns st e1) as (v2 & e2 & He2).
  rewrite (Big_Argument_toBox_run _ _ "state" _ st v2 e2);
    [|unfold args_frame; cbn [objects];
      by rewrite lookup_delete_ne, lookup_insert_ne, lookup_singleton_eq
     |unfold SerializableArgument_toString; by rewrite Hst].
  by eexists.
Qed.

(** C1, on the code. [connected] adds the connection to the registry, and
    the broadcast to it raises [NameError] where it reads the unbound name
    [action]: no [ClusterStatusCommand] is sent and no command is recorded
    as under way. *)
Theorem connected_raises_NameError c w :
  global_action w = None →
  _current_command_for_connection w !! c = None →
  ∃ w', connected c w = (Raises NameError, w') ∧
        c ∈ connections w' ∧
        wire w' = wire w ∧
        deferreds w' = deferreds w ∧
        _current_command_for_connection w' = _current_command_for_connection w.
Proof.
  intros Hga Hcur. unfold connected, with_action, mbind, M_bind. simpl.
  unfold _send_state_to_connections, with_action, with_cache. simpl.
  unfold mbind, M_bind. rewrite idle_unbound by done. simpl.
  eexists. split; [reflexivity|]. simpl.
  split; [apply elem_of_union; left; by apply elem_of_singleton|done].
Qed.

(** With the name [action] bound, [connected] does what C1 says: one
    [ClusterStatusCommand] with the configuration and the state of that
    moment, on the new connection only. *)
Lemma connected_sends_when_bound c w a :
  global_action w = Some a →
  _current_command_for_connection w !! c = None →
  is_Deployment (configuration w) = true →
  is_DeploymentState (as_deployment (cluster_state w)) = true →
  transport w c = Connected →
  ∃ w' box, connected c w = (Returns tt, w') ∧
        connections w' = {[c]} ∪ connections w ∧
        wire w' = wire w ++ [{| msg_connection := c;
                                msg_configuration := configuration w;
                                msg_state := as_deployment (cluster_state w);
                                msg_box := box |}].
Proof.
  intros Hga Hcur Hcfg Hst Hnet. unfold connected, with_action, mbind, M_bind. simpl.
  unfold _send_state_to_connections, with_action, with_cache. simpl.
  unfold mbind, M_bind.
  match goal with |- context [send_state_to_connection ?cfg ?st c ?w0] =>
    destruct (makeArguments_returns cfg st (LOG_SEND_TO_AGENT c) (_caching_encoder w0))
      as [fr' Hmk]; [done..|];
    destruct (idle_connected cfg st c w0 a fr') as (w1 & d & Hrun & _ & _ & _ & Hwire);
      [done..|];
    pose proof (ev_connections _ _ (evolving_send_state_to_connection cfg st c w0)) as Hev
  end.
  rewrite Hrun in Hev |- *. simpl in *. eexists _, _. split; [reflexivity|]. simpl.
  split; [exact Hev|exact Hwire].
Qed.

End ServiceClaims.

(** ** The cache scope, the locator, stopping *)

Section ScopeAndLifecycle.
Context {Obj : Type} `{Countable Obj} `{!WireCodec Obj}.
Context {ClusterState : Type} `{!Collaborators Obj ClusterState}.

Local Abbreviation World := (world (Obj:=Obj) (ClusterState:=ClusterState)).
Implicit Types (w : World) (ev : log_event Obj) (a : Action Obj) (cfg st : Obj).

(** The scope of [cache()] when the block returns: the block starts with
    an empty cache and the cache is [None] afterwards. *)
Lemma with_cache_returns {S A} (get : S → CachingEncoder (Obj:=Obj)) set
    (block : M S A) s x s2 :
  (∀ e s, get (set e s) = e) →
  block (set {| _cache := Some ∅ |} s) = (Returns x, s2) →
  get (set {| _cache := Some ∅ |} s) = {| _cache := Some ∅ |} ∧
  ∃ s', with_cache get set block s = (Returns x, s') ∧ _cache (get s') = None.
Proof.
  intros Hgs Hblock. split; [apply Hgs|]. unfold with_cache. simpl. rewrite Hblock.
  eexists. split; [reflexivity|]. by rewrite Hgs.
Qed.

(** The scope of [cache()] when the block raises: the state is the one the
    block left, cache included. *)
Lemma with_cache_raises {S A} (get : S → CachingEncoder (Obj:=Obj)) set
    (block : M S A) s e s2 :
  block (set {| _cache := Some ∅ |} s) = (Raises e, s2) →
  with_cache get set block s = (Raises e, s2).
Proof. intros Hblock. unfold with_cache. simpl. by rewrite Hblock. Qed.

(** C6, on the code. A block that encodes an object and raises leaves the
    cache active, with the entry; and the fan-out that raises [NameError]
    on a new connection leaves the cache of [_caching_encoder] active and
    empty, not [None]. *)
Theorem cache_stays_active_when_block_raises :
  (∀ (obj : Obj) e,
     with_cache id (λ enc _, enc) (encode obj ;; raise e : M CachingEncoder unit)
       CachingEncoder_init
     = (Raises e, {| _cache := Some {[obj := wire_encode obj]} |})) ∧
  (∀ (cluster : ClusterState) cfg net c,
     fst (connected c (ControlAMPService_init cluster cfg None net)) = Raises NameError ∧
     _cache (_caching_encoder
               (snd (connected c (ControlAMPService_init cluster cfg None net))))
     = Some ∅).
Proof.
  split.
  - intros obj e. apply with_cache_raises. unfold mbind, M_bind, encode. simpl.
    rewrite lookup_empty. by rewrite insert_empty.
  - intros cluster cfg net c.
    unfold connected, with_action, mbind, M_bind. simpl.
    unfold _send_state_to_connections, with_action, with_cache. simpl.
    unfold mbind, M_bind. rewrite idle_unbound by done. done.
Qed.

(** The activity recorded over a sequence of commands never goes back. *)
Lemma locateResponder_nondecreasing (calls : list (Z * string)) self :
  (last_activity (_source self)
   ≤ last_activity (_source (foldl (λ s call, snd (locateResponder call.1 call.2 s))
                                   self calls)))%Z.
Proof.
  revert self. induction calls as [|[t n] calls IH]; intros self; simpl; [done|].
  etrans; [|apply IH]. unfold last_activity. simpl. lia.
Qed.

(** C9. When a command comes in, whatever its name, and the clock has not
    gone back since the activity recorded last: [locateResponder] records
    the reading of the clock as the last activity of the source, the
    recorded activity does not decrease, and the responder is looked up and
    run after that, on the locator with the new activity. *)
Theorem locateResponder_records_activity seconds name self (state_changes : Obj) w :
  (last_activity (_source self) ≤ seconds)%Z →
  ∃ self',
    locateResponder seconds name self = (CommandLocator_locateResponder name, self') ∧
    last_activity (_source self') = seconds ∧
    (last_activity (_source self) ≤ last_activity (_source self'))%Z ∧
    dispatch seconds name state_changes (self, w)
    = run_responder (CommandLocator_locateResponder name) state_changes (self', w).
Proof.
  intros Hclock. eexists. split; [reflexivity|].
  unfold last_activity in *. simpl. split_and!; [lia|lia|done].
Qed.

Lemma evolves_log_elem w w' ev : evolves w w' → ev ∈ eliot_log w → ev ∈ eliot_log w'.
Proof. intros [] Hev. destruct ev_log0 as [k ->]. apply elem_of_app. by left. Qed.

Lemma with_action_started {A} a (block : M World A) w :
  evolving block → started a ∈ eliot_log (snd (with_action a block w)).
Proof.
  intros Hblock. unfold with_action.
  specialize (Hblock (snd (log (started a) w))).
  assert (started a ∈ eliot_log (snd (log (started a) w))) as Hin.
  { simpl. apply elem_of_app. right. by apply list_elem_of_singleton. }
  pose proof (evolves_log_elem _ _ _ Hblock Hin).
  destruct (block _) as [[x|e] w']; simpl in *; apply elem_of_app; by left.
Qed.

Lemma evolving_call_listener l : evolving (call_listener l : M World unit).
Proof. destruct l. intros w. apply evolving_send_state_to_connections. Qed.

Lemma stopService_closing (l : list conn) w :
  ∃ w', for_each l (λ connection, modify (set_closing (λ s, {[connection]} ∪ s))) w
        = (Returns tt, w') ∧
    closing w' = list_to_set l ∪ closing w ∧
    connections w' = connections w ∧ registered w' = registered w ∧
    endpoint_running w' = endpoint_running w ∧ cluster_state w' = cluster_state w ∧
    eliot_log w' = eliot_log w.
Proof.
  revert w. induction l as [|c l IH]; intros w.
  - exists w. split_and!; try done. simpl. by rewrite (left_id_L ∅ (∪)).
  - simpl. unfold mbind, M_bind. simpl.
    destruct (IH (set_closing (λ s, {[c]} ∪ s) w))
      as (w' & -> & Hclosing & ? & ? & ? & ? & ?).
    exists w'. split_and!; try done. rewrite Hclosing. simpl.
    rewrite <-(assoc_L (∪)), !(assoc_L (∪) _ _ (closing w)).
    f_equal. apply (comm_L (∪)).
Qed.

(** C8, amended. [stopService] stops the endpoint service and asks every
    connection of the registry to close; the registry and the callback
    registered with the persistence service stay as they are, and a
    configuration committed afterwards still starts the broadcast
    [_send_state_to_connections]. *)
Theorem stopService_keeps_callback w :
  ∃ w', stopService w = (Returns tt, w') ∧
    endpoint_running w' = false ∧
    closing w' = connections w ∪ closing w ∧
    connections w' = connections w ∧
    registered w' = registered w ∧
    ∀ cfg, registered w ≠ [] →
      started (LOG_SEND_CLUSTER_STATE cfg (as_deployment (cluster_state w)))
      ∈ eliot_log (snd (configuration_save cfg w')).
Proof.
  unfold stopService, mbind, M_bind. simpl.
  destruct (stopService_closing (elements (connections w)) (set_endpoint_running false w))
    as (w' & -> & Hclosing & Hconn & Hreg & Hrun & Hcs & _).
  exists w'. split_and!; try done.
  { rewrite Hclosing. simpl. by rewrite list_to_set_elements_L. }
  intros cfg Hne. unfold configuration_save, mbind, M_bind. simpl.
  rewrite Hreg. simpl. destruct (registered w) as [|[] ls]; [done|].
  simpl. unfold mbind, M_bind.
  match goal with |- context [_send_state_to_connections ?l ?w0] =>
    assert (started (LOG_SEND_CLUSTER_STATE cfg (as_deployment (cluster_state w)))
            ∈ eliot_log (snd (_send_state_to_connections l w0))) as Hin
  end.
  { unfold _send_state_to_connections. simpl. rewrite Hcs. simpl.
    apply with_action_started, evolving_with_cache, evolving_for_each.
    intros c. apply evolving_send_state_to_connection. }
  destruct (_send_state_to_connections _ _) as [[[]|e] w1]; simpl in *; [|done].
  eapply evolves_log_elem; [|done].
  apply evolving_for_each, evolving_call_listener.
Qed.

End ScopeAndLifecycle.

(** ** One failing connection among the targets *)

Section Isolation.
Context {Obj : Type} `{Countable Obj} `{!WireCodec Obj}.
Context {ClusterState : Type} `{!Collaborators Obj ClusterState}.

Local Abbreviation World := (world (Obj:=Obj) (ClusterState:=ClusterState)).
Implicit Types (w : World) (ev : log_event Obj) (a : Action Obj) (cfg st : Obj).

(** One turn of the loop when nothing raises: the entries of the other
    connections stay, and a connection that is idle and connected is sent
    the command. *)
Lemma send_state_to_connection_returns cfg st x w a :
  global_action w = Some a →
  is_Deployment cfg = true → is_DeploymentState st = true →
  (∀ e, transport w x ≠ Failing e) →
  ∃ w1 sent,
    send_state_to_connection cfg st x w = (Returns tt, w1) ∧
    wire w1 = wire w ++ sent ∧
    (∀ c, c ≠ x → _current_command_for_connection w1 !! c
                  = _current_command_for_connection w !! c) ∧
    (_current_command_for_connection w !! x = None → transport w x = Connected →
     ∃ box, sent = [{| msg_connection := x; msg_configuration := cfg;
                       msg_state := st; msg_box := box |}]).
Proof.
  intros Hga Hcfg Hst Hnet.
  destruct (_current_command_for_connection w !! x) as [[d [|]]|] eqn:Hcur.
  - exists w, []. rewrite (busy_scheduled cfg st x w d) by done.
    split_and!; [done|by rewrite app_nil_r|done|done].
  - destruct (busy_unscheduled cfg st x w d Hcur) as (w1 & Hrun & _ & Hcur1 & Hwire).
    exists w1, []. rewrite Hrun, Hcur1, Hwire, app_nil_r.
    split_and!; [done|done| |done]. intros c Hc. by rewrite lookup_insert_ne.
  - destruct (makeArguments_returns cfg st (LOG_SEND_TO_AGENT x) (_caching_encoder w))
      as [fr' Hmk]; [done..|].
    destruct (transport w x) as [|reason|e] eqn:Hx.
    + destruct (idle_connected cfg st x w a fr')
        as (w1 & d & Hrun & _ & _ & Hcur1 & Hwire); [done..|].
      exists w1, [{| msg_connection := x; msg_configuration := cfg;
                     msg_state := st; msg_box := strings fr' |}].
      rewrite Hrun, Hcur1. split_and!; [done|done| |by eexists].
      intros c Hc. by rewrite lookup_insert_ne.
    + destruct (idle_lost cfg st x w a reason fr')
        as (w1 & d & Hrun & _ & _ & Hcur1 & Hwire); [done..|].
      exists w1, []. rewrite Hrun, Hcur1, Hwire, app_nil_r. done.
    + by destruct (Hnet e).
Qed.

(** The loop when nothing raises. *)
Lemma for_each_connection_returns cfg st a l :
  is_Deployment cfg = true → is_DeploymentState st = true →
  ∀ w, global_action w = Some a →
  (∀ c e, c ∈ l → transport w c ≠ Failing e) →
  ∃ w' sent,
    for_each l (send_state_to_connection cfg st) w = (Returns tt, w') ∧
    wire w' = wire w ++ sent ∧
    (∀ c, c ∈ l → _current_command_for_connection w !! c = None →
          transport w c = Connected →
          ∃ box, {| msg_connection := c; msg_configuration := cfg;
                    msg_state := st; msg_box := box |} ∈ sent).
Proof.
  intros Hcfg Hst. induction l as [|x l IH]; intros w Hga Hnet.
  - exists w, []. split_and!; [done|by rewrite app_nil_r|]. by intros c ?%elem_of_nil.
  - destruct (send_state_to_connection_returns cfg st x w a)
      as (w1 & sent1 & Hrun & Hwire1 & Hother & Hsent1); [done..| |].
    { intros e. apply Hnet. by left. }
    pose proof (evolving_send_state_to_connection cfg st x w) as Hev.
    rewrite Hrun in Hev. simpl in Hev.
    destruct (IH w1) as (w' & sent & Hloop & Hwire & Hsent).
    { by rewrite (ev_global_action _ _ Hev). }
    { intros c e Hc. rewrite (ev_transport _ _ Hev). apply Hnet. by right. }
    exists w', (sent1 ++ sent). simpl. unfold mbind, M_bind. rewrite Hrun, Hloop.
    split_and!; [done|by rewrite Hwire, Hwire1, (assoc (++))|].
    intros c Hc Hidle Hconn. destruct (decide (c = x)) as [->|Hne].
    + destruct (Hsent1 Hidle Hconn) as [box ->]. exists box.
      apply elem_of_app. left. by apply list_elem_of_singleton.
    + apply elem_of_cons in Hc as [->|Hc]; [done|].
      destruct (Hsent c) as [box Hbox]; [done|by rewrite Hother|
                                         by rewrite (ev_transport _ _ Hev)|].
      exists box. apply elem_of_app. by right.
Qed.

(** A rejected answer to a command with no follow-up scheduled. *)
Lemma fire_failure_swallowed c d e w :
  deferreds w !! d = Some (Pending c (chain c false)) →
  _current_command_for_connection w !! c = Some (d, false) →
  deferreds (fire d (Failure e) w) !! d = Some (Called Success) ∧
  _current_command_for_connection (fire d (Failure e) w)
    = delete c (_current_command_for_connection w) ∧
  wire (fire d (Failure e) w) = wire w.
Proof.
  intros Hd Hcur. unfold fire. rewrite Hd. unfold chain. rewrite app_nil_r.
  rewrite (run_callbacks_answered c d false) by done. simpl.
  split_and!; [apply lookup_insert_eq|done..].
Qed.

(** What the loop would do were the name [action] bound.  In a state the
    service reaches, with the name [action] bound, a configuration and a
    state that serialize and no target whose
    [callRemote] raises: the broadcast over the targets returns, and every
    target that is idle and connected is sent the [ClusterStatusCommand] of
    this broadcast, whatever the other targets are, lost connections whose
    [Deferred] comes back rejected included.  When an answer is rejected
    later, the command is completed and the entries of the other
    connections stay; when no follow-up is scheduled the failure is
    swallowed: the chain ends in success, the entry of that connection
    alone is removed, nothing is sent. *)
Lemma broadcast_survives_rejected_answers l w a :
  reachable w →
  global_action w = Some a →
  is_Deployment (configuration w) = true →
  is_DeploymentState (as_deployment (cluster_state w)) = true →
  (∀ c e, c ∈ l → transport w c ≠ Failing e) →
  ∃ w' sent,
    _send_state_to_connections l w = (Returns tt, w') ∧
    wire w' = wire w ++ sent ∧
    (∀ c, c ∈ l → _current_command_for_connection w !! c = None →
          transport w c = Connected →
          ∃ box, {| msg_connection := c; msg_configuration := configuration w;
                    msg_state := as_deployment (cluster_state w);
                    msg_box := box |} ∈ sent) ∧
    (∀ c d b e, _current_command_for_connection w' !! c = Some (d, b) →
       (∃ r, deferreds (fire d (Failure e) w') !! d = Some (Called r)) ∧
       (∀ c', c' ≠ c → _current_command_for_connection (fire d (Failure e) w') !! c'
                       = _current_command_for_connection w' !! c') ∧
       (b = false →
        deferreds (fire d (Failure e) w') !! d = Some (Called Success) ∧
        _current_command_for_connection (fire d (Failure e) w')
          = delete c (_current_command_for_connection w') ∧
        wire (fire d (Failure e) w') = wire w')).
Proof.
  intros Hreach Hga Hcfg Hst Hnet.
  pose proof (send_state_to_connections_inv l w (reachable_inv w Hreach)) as Hinv.
  unfold _send_state_to_connections, with_action, with_cache in *. simpl in *.
  match goal with |- context [for_each l ?body ?w0] =>
    destruct (for_each_connection_returns (configuration w)
                (as_deployment (cluster_state w)) a l Hcfg Hst w0 Hga Hnet)
      as (w' & sent & Hloop & Hwire & Hsent)
  end.
  rewrite Hloop in Hinv |- *. simpl in *.
  eexists _, sent. split; [reflexivity|]. simpl. split_and!; [done|done|].
  intros c d b e Hcur.
  match goal with |- context [fire d (Failure e) ?w1] =>
    destruct (fire_completes c d b (Failure e) w1) as [Hcalled Hother]; [done..|];
    pose proof (fire_failure_swallowed c d e w1) as Hswallowed
  end.
  split; [exact Hcalled|]. split; [exact Hother|]. intros ->.
  apply Hswallowed; [|exact Hcur]. by apply (proj2 Hinv).
Qed.

End Isolation.

(** ** The service on concrete runs *)

(** A new connection on the service as [__init__] leaves it. *)
Lemma connected_raises_NameError_witness :
  global_action Example.service = None ∧
  _current_command_for_connection Example.service !! 5 = None ∧
  ∃ w', connected 5 Example.service = (Raises NameError, w') ∧
        5 ∈ connections w' ∧ wire w' = [].
Proof.
  assert (global_action Example.service = None) as H1 by reflexivity.
  assert (_current_command_for_connection Example.service !! 5 = None) as H2
    by reflexivity.
  split; [exact H1|]. split; [exact H2|].
  destruct (connected_raises_NameError 5 Example.service H1 H2)
    as (w' & Hrun & Hin & Hwire & _).
  exists w'. split; [exact Hrun|]. split; [exact Hin|exact Hwire].
Defined.

(** C2, on the code.  From [__init__]: a connection is made and the
    configuration changes three times; every broadcast raises [NameError],
    nothing is ever sent and no command is ever in flight.  From a state
    in which a command is in flight on connection 5, with [action] unbound
    as in the module: the three changes schedule one follow-up, and when
    the answer comes the follow-up raises [NameError] in the callback: no
    further [ClusterStatusCommand] is sent, where C2 has exactly one, with
    the configuration 4. *)
Theorem coalesced_follow_up_not_sent :
  (let w := run [ev_connectionMade 5; ev_configuration_saved 2;
                 ev_configuration_saved 3; ev_configuration_saved 4] Example.service in
   wire w = [] ∧ deferreds w = ∅ ∧ configuration w = 4) ∧
  (let w := run [ev_configuration_saved 2; ev_configuration_saved 3;
                 ev_configuration_saved 4] (Example.service_in_flight None) in
   deferreds w !! 0 = Some (Pending 5 (chain 5 true)) ∧
   _current_command_for_connection w !! 5 = Some (0, true) ∧
   configuration w = 4 ∧
   wire (step (ev_answer 0 Success) w) = [] ∧
   deferreds (step (ev_answer 0 Success) w) !! 0 = Some (Called (Failure NameError)) ∧
   _current_command_for_connection (step (ev_answer 0 Success) w) !! 5 = None).
Proof. vm_compute. done. Qed.

(** With the name [action] bound, the same run does what C2 says: one
    follow-up, on connection 5, with the last configuration. *)
Lemma coalesced_follow_up_when_bound :
  let w := run [ev_configuration_saved 2; ev_configuration_saved 3;
                ev_configuration_saved 4; ev_answer 0 Success]
               (Example.service_in_flight (Some (AGENT_CONNECTED 0))) in
  msg_connection <$> wire w = [5] ∧
  msg_configuration <$> wire w = [4] ∧
  _current_command_for_connection w !! 5 = Some (1, false).
Proof. vm_compute. done. Qed.

(** One command in flight after a connection is made, with [action]
    bound. *)
Lemma at_most_one_command_in_flight_witness :
  let w := step (ev_connectionMade 5) Example.service_bound in
  reachable w ∧ in_flight w 0 5 ∧ at_most_one_in_flight w.
Proof.
  intros w.
  assert (reachable w) as Hreach by apply reachable_step, reachable_init.
  split; [exact Hreach|]. split.
  - eexists. vm_compute. reflexivity.
  - exact (proj1 (at_most_one_command_in_flight w Hreach)).
Defined.

(** When [callRemote] raises on the first target the broadcast raises and
    the second target is sent nothing, were [action] bound and, as in the
    module, unbound. *)
Lemma broadcast_stops_at_raising_target :
  (let w := ControlAMPService_init (Obj:=nat) (ClusterState:=nat) 0 1
              (Some (AGENT_CONNECTED 0)) Example.first_failing in
   fst (_send_state_to_connections [1; 2] w) = Raises (RemoteError 7) ∧
   wire (snd (_send_state_to_connections [1; 2] w)) = []) ∧
  (let w := ControlAMPService_init (Obj:=nat) (ClusterState:=nat) 0 1
              None Example.first_failing in
   fst (_send_state_to_connections [1; 2] w) = Raises NameError ∧
   wire (snd (_send_state_to_connections [1; 2] w)) = []).
Proof. vm_compute. done. Qed.

(** C8, as stated, fails: after [stopService] the callback is still
    registered and connection 5 is still in the registry; a configuration
    committed then starts the broadcast, which raises [NameError] as every
    broadcast of the module does, and with [action] bound it is sent to
    connection 5. *)
Lemma broadcast_after_stopService :
  (let w := run [ev_connectionMade 5; ev_stopService] Example.service in
   registered w = [send_state_to_all_connections] ∧
   endpoint_running w = false ∧
   elements (connections w) = [5] ∧
   drop 4 (eliot_log (step (ev_configuration_saved 9) w))
   = [started (LOG_SEND_CLUSTER_STATE 9 100);
      finished (LOG_SEND_CLUSTER_STATE 9 100) (Failure NameError)]) ∧
  (let w := run [ev_connectionMade 5; ev_answer 0 Success; ev_stopService;
                 ev_configuration_saved 9] Example.service_bound in
   endpoint_running w = false ∧
   msg_connection <$> wire w = [5; 5] ∧
   msg_configuration <$> wire w = [1; 9]).
Proof. vm_compute. done. Qed.

(** A [NoOp] at second 30 on a locator whose source was last active at 0. *)
Lemma locateResponder_records_activity_witness :
  let self := {| _source := {| _last_activity := 0 |} |} in
  (last_activity (_source self) ≤ 30)%Z ∧
  ∃ self',
    locateResponder 30 "NoOp" self = (Some noop, self') ∧
    last_activity (_source self') = 30%Z ∧
    dispatch 30 "NoOp" 0 (self, Example.service)
    = (Returns empty_response, (self', Example.service)).
Proof.
  intros self.
  assert (last_activity (_source self) ≤ 30)%Z as H1 by (simpl; lia).
  split; [exact H1|].
  destruct (locateResponder_records_activity 30 "NoOp" self 0 Example.service H1)
    as (self' & Hloc & Hact & _ & Hdisp).
  exists self'. split; [exact Hloc|]. split; [exact Hact|exact Hdisp].
Defined.

(** * More of the module *)

(** ** The encoder and the arguments *)

Section EncoderAndArguments.
Context {Obj : Type} `{Countable Obj} `{!WireCodec Obj}.

Implicit Types (enc : CachingEncoder (Obj:=Obj)) (fr : frame (Obj:=Obj)).

Lemma coherent_init : coherent (CachingEncoder_init (Obj:=Obj)).
Proof. intros cache obj v Hc. discriminate. Qed.

Lemma coherent_empty : coherent ({| _cache := Some ∅ |} : CachingEncoder (Obj:=Obj)).
Proof. intros cache obj v [= <-]. by rewrite lookup_empty. Qed.

Lemma coherent_none : coherent ({| _cache := None |} : CachingEncoder (Obj:=Obj)).
Proof. intros cache obj v Hc. discriminate. Qed.

(** What [encode] does to a coherent cache. *)
Lemma encode_coherent (obj : Obj) enc :
  coherent enc →
  ∃ enc', encode obj enc = (Returns (wire_encode obj), enc') ∧
    coherent enc' ∧
    match _cache enc with
    | None => enc' = enc
    | Some cache => _cache enc' = Some (<[obj := wire_encode obj]> cache)
    end.
Proof.
  intros Hcoh. unfold encode. destruct (_cache enc) as [cache|] eqn:Hcache.
  - destruct (cache !! obj) as [v|] eqn:Hobj.
    + rewrite (Hcoh cache obj v Hcache Hobj). exists enc. split; [done|]. split; [done|].
      etrans; [exact Hcache|]. f_equal. symmetry. apply insert_id.
      by rewrite Hobj, (Hcoh cache obj v Hcache Hobj).
    + eexists. split; [done|]. split; [|done].
      intros cache' obj' v' [= <-] Hv'.
      destruct (decide (obj' = obj)) as [->|Hne].
      * rewrite lookup_insert_eq in Hv'. by injection Hv'.
      * rewrite lookup_insert_ne in Hv' by done. by apply (Hcoh cache).
  - by exists enc.
Qed.

(** X1. Caching does not show in what [encode] returns: on a cache whose
    entries are wire encodings of their keys, in or out of a scope,
    [encode] returns [wire_encode(obj)]; out of a scope it leaves the
    encoder as it is, in a scope the cache afterwards holds the encoding of
    the object, the other entries are as before and all are still wire
    encodings of their keys. *)
Theorem encode_is_wire_encode (obj : Obj) enc :
  coherent enc →
  ∃ enc', encode obj enc = (Returns (wire_encode obj), enc') ∧
    coherent enc' ∧
    match _cache enc with
    | None => enc' = enc
    | Some cache => _cache enc' = Some (<[obj := wire_encode obj]> cache)
    end.
Proof. apply encode_coherent. Qed.

(** X2. [SerializableArgument] on a coherent cache: an object of an
    expected class is written as [wire_encode(obj)], and is read back from
    these bytes when [wire_decode] inverts [wire_encode] on it; an object
    of another class makes [toString] raise [TypeError] with the encoder
    untouched; bytes that decode to an object of another class make
    [fromString] raise [TypeError], and an error of [wire_decode] comes out
    of [fromString] as it is. *)
Theorem SerializableArgument_strings (_expected_classes : Obj → bool) (obj : Obj) enc :
  coherent enc →
  (if _expected_classes obj
   then ∃ enc', SerializableArgument_toString _expected_classes obj enc
                = (Returns (wire_encode obj), enc') ∧ coherent enc' ∧
          (wire_decode (wire_encode obj) = Returns obj →
           SerializableArgument_fromString _expected_classes (wire_encode obj)
           = Returns obj)
   else SerializableArgument_toString _expected_classes obj enc = (Raises TypeError, enc)) ∧
  (∀ in_bytes obj', wire_decode in_bytes = Returns obj' →
     _expected_classes obj' = false →
     SerializableArgument_fromString _expected_classes in_bytes = Raises TypeError) ∧
  (∀ in_bytes e, wire_decode in_bytes = Raises e →
     SerializableArgument_fromString _expected_classes in_bytes = Raises e).
Proof.
  intros Hcoh. split_and!.
  - unfold SerializableArgument_toString, SerializableArgument_fromString.
    destruct (_expected_classes obj) eqn:Hexp; [|done].
    destruct (encode_coherent obj enc Hcoh) as (enc' & Henc & Hcoh' & _).
    exists enc'. split_and!; [done..|]. intros ->. by rewrite Hexp.
  - intros in_bytes obj' Hdec Hexp. unfold SerializableArgument_fromString.
    by rewrite Hdec, Hexp.
  - intros in_bytes e Hdec. unfold SerializableArgument_fromString. by rewrite Hdec.
Qed.

(** The values the chunking loop leaves are values that were there or
    chunks of at most [n] bytes. *)
Lemma toBox_loop_values (P : bytes → Prop) n name value counter
    (strings : gmap string bytes) :
  (∀ chunk, length chunk ≤ n → P chunk) →
  (∀ key v, strings !! key = Some v → P v) →
  ∀ key v, toBox_loop n name value counter strings !! key = Some v → P v.
Proof.
  intros Hchunk. remember (length value) as L eqn:HL.
  revert value HL counter strings.
  induction L as [L IH] using lt_wf_ind. intros value -> counter strings Hbefore key v.
  destruct (decide (take n value = [])) as [Hnil|Hne].
  { rewrite toBox_loop_done by done. apply Hbefore. }
  rewrite toBox_loop_more by done.
  assert (length (drop n value) < length value) as Hlt.
  { rewrite length_drop. destruct n; [done|]. destruct value; [done|]. simpl. lia. }
  apply (IH (length (drop n value)) Hlt (drop n value) eq_refl (S counter)
            (<[chunk_key name counter := take n value]> strings)).
  intros key' v'. destruct (decide (key' = chunk_key name counter)) as [->|Hkey].
  - rewrite lookup_insert_eq. intros [= <-]. apply Hchunk. rewrite length_take. lia.
  - rewrite lookup_insert_ne by done. apply Hbefore.
Qed.

(** X3. What [Big] is for: when [Big.toBox] returns, the key [name] is
    gone and every value of the dictionary that was not there before is a
    chunk of at most [MAX_VALUE_LENGTH] bytes; so a dictionary whose other
    values fit an AMP box is left with values that all fit. *)
Theorem Big_toBox_fits (another_argument : IArgumentType (Obj:=Obj)) name fr fr1 fr2 :
  toBox another_argument name fr = (Returns tt, fr1) →
  toBox (Big another_argument) name fr = (Returns tt, fr2) →
  (∀ key v, key ≠ name → strings fr1 !! key = Some v → length v ≤ MAX_VALUE_LENGTH) →
  strings fr2 !! name = None ∧
  ∀ key v, strings fr2 !! key = Some v → length v ≤ MAX_VALUE_LENGTH.
Proof.
  intros Hinner Hbig Hfit. simpl in Hbig. unfold Big_toBox, mbind, M_bind in Hbig.
  rewrite Hinner in Hbig. unfold strings_pop in Hbig.
  destruct (strings fr1 !! name) as [value|] eqn:Hvalue; [|done].
  injection Hbig as <-. cbn [strings set_strings]. split.
  - destruct (toBox_loop_spec MAX_VALUE_LENGTH name value 0
                (delete name (strings fr1)) MAX_VALUE_LENGTH_pos) as [_ Hb].
    rewrite Hb; [apply lookup_delete_eq|].
    intros i _ Heq. by apply (chunk_key_ne_name name (0 + i)).
  - intros key v Hres.
    refine (toBox_loop_values (λ v, length v ≤ MAX_VALUE_LENGTH) MAX_VALUE_LENGTH name
              value 0 (delete name (strings fr1)) _ _ key v Hres); [done|].
    intros key' v' Hkey. destruct (decide (key' = name)) as [->|Hne].
    + by rewrite lookup_delete_eq in Hkey.
    + rewrite lookup_delete_ne in Hkey by done. by apply (Hfit key').
Qed.

(** X4. [Big.fromBox] on any dictionary: the loop ends, at the first index
    whose key is missing; the chunks below that index, in order, are put
    together under [name] when there is at least one, and the dictionary is
    left as it is when there is none; chunks beyond the gap are not read and
    the chunk keys stay in the dictionary.  The wrapped argument then reads
    that dictionary. *)
Theorem Big_fromBox_reassembles (another_argument : IArgumentType (Obj:=Obj)) name fr :
  ∃ cs,
    (∀ i chunk, cs !! i = Some chunk → strings fr !! chunk_key name i = Some chunk) ∧
    strings fr !! chunk_key name (length cs) = None ∧
    fromBox (Big another_argument) name fr =
    fromBox another_argument name
      (set_strings (λ _, if decide (cs = []) then strings fr
                         else <[name := concat cs]> (strings fr)) fr).
Proof.
  destruct (fromBox_loop_total name (strings fr)) as (cs & Hcs & Hend & Hloop).
  exists cs. split_and!; [done..|]. by apply Big_fromBox_run.
Qed.

End EncoderAndArguments.

(** An active cache that holds the object 3 already. *)
Lemma encode_is_wire_encode_witness :
  let enc : CachingEncoder (Obj:=nat) := {| _cache := Some {[3 := wire_encode 3]} |} in
  coherent enc ∧
  ∃ enc', encode 3 enc = (Returns (replicate 4 "*"%byte), enc').
Proof.
  intros enc.
  assert (coherent enc) as Hco.
  { intros cache obj v [= <-] Hv. apply lookup_singleton_Some in Hv as [<- <-]. reflexivity. }
  split; [exact Hco|].
  destruct (encode_is_wire_encode 3 enc Hco) as (enc' & Hrun & _).
  exists enc'. exact Hrun.
Defined.

(** The object 3 is a [Deployment]. *)
Lemma SerializableArgument_strings_witness :
  let enc : CachingEncoder (Obj:=nat) := {| _cache := Some ∅ |} in
  coherent enc ∧
  ∃ enc', SerializableArgument_toString is_Deployment 3 enc
          = (Returns (replicate 4 "*"%byte), enc').
Proof.
  intros enc.
  assert (coherent enc) as Hco by apply coherent_empty.
  split; [exact Hco|].
  assert (is_Deployment 3 = true) as Hclass by reflexivity.
  pose proof (proj1 (SerializableArgument_strings is_Deployment 3 enc Hco)) as H3.
  rewrite Hclass in H3. destruct H3 as (enc' & Hrun & _).
  exists enc'. exact Hrun.
Defined.

(** The configuration 3 in a box that holds nothing else. *)
Lemma Big_toBox_fits_witness :
  let wrapped := SerializableArgument (Obj:=nat) is_Deployment in
  let fr := Example.one_argument 3 in
  let fr1 := snd (toBox wrapped "configuration" fr) in
  let fr2 := snd (toBox (Big wrapped) "configuration" fr) in
  toBox wrapped "configuration" fr = (Returns tt, fr1) ∧
  toBox (Big wrapped) "configuration" fr = (Returns tt, fr2) ∧
  (∀ key v, key ≠ "configuration" → strings fr1 !! key = Some v →
     length v ≤ MAX_VALUE_LENGTH) ∧
  strings fr2 !! "configuration" = None ∧
  ∀ key v, strings fr2 !! key = Some v → length v ≤ MAX_VALUE_LENGTH.
Proof.
  intros wrapped fr fr1 fr2.
  assert (toBox wrapped "configuration" fr = (Returns tt, fr1)) as H1
    by (vm_compute; reflexivity).
  assert (toBox (Big wrapped) "configuration" fr = (Returns tt, fr2)) as H2
    by (vm_compute; reflexivity).
  assert (∀ key v, key ≠ "configuration" → strings fr1 !! key = Some v →
            length v ≤ MAX_VALUE_LENGTH) as H3.
  { intros key v Hkey Hv.
    assert (strings fr1 = {["configuration" := replicate 4 "*"%byte]}) as Hs
      by (vm_compute; reflexivity).
    rewrite Hs, lookup_singleton_ne in Hv by done. discriminate. }
  split; [exact H1|]. split; [exact H2|]. split; [exact H3|].
  exact (Big_toBox_fits wrapped "configuration" fr fr1 fr2 H1 H2 H3).
Defined.

(** ** From [callRemote] to the agent *)

Section WireRoundTrip.
Context {Obj : Type} `{Countable Obj} `{!WireCodec Obj}.
Context {ClusterState : Type} `{!Collaborators Obj ClusterState}.
Context {AgentState : Type} `{!IConvergenceAgent Obj AgentState} `{!EliotTasks Obj}.

Implicit Types (enc : CachingEncoder (Obj:=Obj)) (fr : frame (Obj:=Obj)).
Implicit Types (cfg st : Obj) (a : Action Obj).

(** [Big.fromBox] over a wrapped [Argument] on a dictionary that holds the
    chunks of [value] and no further one. *)
Lemma Big_Argument_fromBox_chunks toString fromString name fr value (obj : Obj) :
  value ≠ [] →
  (∀ i, i < ceil_div (length value) MAX_VALUE_LENGTH →
     strings fr !! chunk_key name i = Some (slice MAX_VALUE_LENGTH value i)) →
  strings fr !! chunk_key name (ceil_div (length value) MAX_VALUE_LENGTH) = None →
  fromString value = Returns obj →
  fromBox (Big (Argument toString fromString)) name fr =
  (Returns tt, {| strings := delete name (strings fr);
                  objects := <[name := obj]> (objects fr);
                  encoder := encoder fr |}).
Proof.
  intros Hne Hchunks Hend Hdec.
  pose proof MAX_VALUE_LENGTH_pos as Hmax.
  assert (0 < length value) as Hpos by (destruct value; [done|simpl; lia]).
  set (k := ceil_div (length value) MAX_VALUE_LENGTH) in *.
  set (cs := slice MAX_VALUE_LENGTH value <$> seq 0 k).
  assert (length cs = k) as Hlen by (unfold cs; by rewrite length_fmap, length_seq).
  assert (0 < k) as Hk by (by apply ceil_div_pos_iff).
  assert (fromBox_loop (S (size (strings fr))) name 0 [] (strings fr)
          = Some (<[name := value]> (strings fr))) as Hloop.
  { rewrite (fromBox_loop_spec cs).
    - rewrite decide_False by (intros Hnil; rewrite Hnil in Hlen; simpl in Hlen; lia).
      simpl. unfold cs, k. by rewrite slices_concat.
    - intros i chunk Hi. unfold cs in Hi. rewrite list_lookup_fmap in Hi.
      destruct (seq 0 k !! i) as [j|] eqn:Hj; [|done].
      apply lookup_seq in Hj as [-> Hik]. simpl in Hi. injection Hi as <-.
      by apply Hchunks.
    - by rewrite Hlen.
    - rewrite Hlen. apply Nat.lt_succ_r, (chunk_keys_bounded name).
      intros i Hi. eexists. by apply Hchunks. }
  rewrite (Big_fromBox_run _ name fr _ Hloop).
  rewrite (Argument_fromBox_run toString fromString name _ value obj); [|apply lookup_insert_eq|done].
  cbn [strings objects encoder set_strings]. by rewrite delete_insert_eq.
Qed.

Lemma configuration_key_ne_state i j :
  chunk_key "configuration" i ≠ chunk_key "state" j.
Proof. unfold chunk_key. simpl. discriminate. Qed.

Lemma configuration_key_ne_eliot i : chunk_key "configuration" i ≠ "eliot_context".
Proof. unfold chunk_key. simpl. discriminate. Qed.

Lemma state_key_ne_eliot j : chunk_key "state" j ≠ "eliot_context".
Proof. unfold chunk_key. simpl. discriminate. Qed.

Lemma configuration_key_ne_state_name i : chunk_key "configuration" i ≠ "state".
Proof. unfold chunk_key. simpl. discriminate. Qed.

Lemma state_key_ne_configuration_name j : chunk_key "state" j ≠ "configuration".
Proof. unfold chunk_key. simpl. discriminate. Qed.

(** The three ways [makeArguments] ends: the configuration is refused, the
    state is refused after the configuration was encoded, or both are
    encoded and the box is [command_box]. *)
Lemma makeArguments_cases cfg st a enc :
  coherent enc →
  (is_Deployment cfg = false ∧
   ∃ fr', makeArguments cfg st a (args_frame cfg st enc) = (Raises TypeError, fr') ∧
          encoder fr' = enc) ∨
  (is_Deployment cfg = true ∧ is_DeploymentState st = false ∧
   ∃ fr', makeArguments cfg st a (args_frame cfg st enc) = (Raises TypeError, fr') ∧
          encoder fr' = snd (encode cfg enc)) ∨
  (is_Deployment cfg = true ∧ is_DeploymentState st = true ∧
   ∃ fr', makeArguments cfg st a (args_frame cfg st enc) = (Returns tt, fr') ∧
          strings fr' = command_box cfg st a ∧
          encoder fr' = snd (encode st (snd (encode cfg enc)))).
Proof.
  intros Hco.
  unfold makeArguments, ClusterStatusCommand_configuration, ClusterStatusCommand_state,
    SerializableArgument, mbind, M_bind.
  destruct (is_Deployment cfg) eqn:Hcfg.
  - right.
    destruct (encode_coherent cfg enc Hco) as (e1 & He1 & Hco1 & _).
    rewrite (Big_Argument_toBox_run _ _ "configuration" _ cfg (wire_encode cfg) e1);
      [|apply lookup_insert_eq|unfold SerializableArgument_toString; by rewrite Hcfg].
    rewrite He1. cbn [snd].
    destruct (is_DeploymentState st) eqn:Hst.
    + right. split; [done|]. split; [done|].
      destruct (encode_coherent st e1 Hco1) as (e2 & He2 & Hco2 & _).
      rewrite (Big_Argument_toBox_run _ _ "state" _ st (wire_encode st) e2);
        [|unfold args_frame; cbn [objects];
          by rewrite lookup_delete_ne, lookup_insert_ne, lookup_singleton_eq
         |unfold SerializableArgument_toString; by rewrite Hst].
      rewrite He2. eexists. split; [done|]. done.
    + left. split; [done|]. split; [done|].
      cbn [toBox Big]. unfold Big_toBox, mbind, M_bind.
      cbn [toBox Argument]. unfold mbind, M_bind, objects_pop. cbn [objects args_frame].
      rewrite lookup_delete_ne, lookup_insert_ne, lookup_singleton_eq by done.
      cbn [encoder set_objects]. unfold SerializableArgument_toString. rewrite Hst.
      eexists. split; [done|]. done.
  - left. split; [done|].
    cbn [toBox Big]. unfold Big_toBox, mbind, M_bind.
    cbn [toBox Argument]. unfold mbind, M_bind, objects_pop. cbn [objects args_frame].
    rewrite lookup_insert_eq.
    cbn [encoder set_objects]. unfold SerializableArgument_toString. rewrite Hcfg.
    eexists. split; [done|]. done.
Qed.

(** The chunks of the two arguments in [command_box]. *)
Lemma command_box_configuration cfg st a i :
  command_box cfg st a !! chunk_key "configuration" i =
  if decide (i < ceil_div (length (wire_encode cfg)) MAX_VALUE_LENGTH)
  then Some (slice MAX_VALUE_LENGTH (wire_encode cfg) i) else None.
Proof.
  pose proof MAX_VALUE_LENGTH_pos as Hmax.
  unfold command_box.
  rewrite lookup_insert_ne by (symmetry; apply configuration_key_ne_eliot).
  destruct (toBox_loop_spec MAX_VALUE_LENGTH "state" (wire_encode st) 0
              (delete "state" (toBox_loop MAX_VALUE_LENGTH "configuration"
                 (wire_encode cfg) 0 (delete "configuration" ∅))) Hmax) as [_ Hb].
  rewrite Hb by (intros j _; apply configuration_key_ne_state).
  rewrite lookup_delete_ne by (symmetry; apply configuration_key_ne_state_name).
  destruct (toBox_loop_spec MAX_VALUE_LENGTH "configuration" (wire_encode cfg) 0
              (delete "configuration" ∅) Hmax) as [Ha' Hb'].
  destruct (decide _) as [Hi|Hi].
  - by apply Ha'.
  - rewrite Hb'.
    + rewrite lookup_delete_ne by apply not_eq_sym, chunk_key_ne_name. apply lookup_empty.
    + intros j Hj Heq. apply chunk_key_inj in Heq. simpl in Heq. lia.
Qed.

Lemma command_box_state cfg st a j :
  delete "configuration" (command_box cfg st a) !! chunk_key "state" j =
  if decide (j < ceil_div (length (wire_encode st)) MAX_VALUE_LENGTH)
  then Some (slice MAX_VALUE_LENGTH (wire_encode st) j) else None.
Proof.
  pose proof MAX_VALUE_LENGTH_pos as Hmax.
  unfold command_box.
  rewrite lookup_delete_ne by (symmetry; apply state_key_ne_configuration_name).
  rewrite lookup_insert_ne by (symmetry; apply state_key_ne_eliot).
  destruct (toBox_loop_spec MAX_VALUE_LENGTH "state" (wire_encode st) 0
              (delete "state" (toBox_loop MAX_VALUE_LENGTH "configuration"
                 (wire_encode cfg) 0 (delete "configuration" ∅))) Hmax) as [Ha Hb].
  destruct (decide _) as [Hj|Hj].
  - by apply Ha.
  - rewrite Hb.
    + rewrite lookup_delete_ne by apply not_eq_sym, chunk_key_ne_name.
      destruct (toBox_loop_spec MAX_VALUE_LENGTH "configuration" (wire_encode cfg) 0
                  (delete "configuration" ∅) Hmax) as [_ Hb'].
      rewrite Hb' by (intros i _ Heq; by apply (configuration_key_ne_state i j)).
      rewrite lookup_delete_ne by (apply not_eq_sym, state_key_ne_configuration_name).
      apply lookup_empty.
    + intros i Hi Heq. apply chunk_key_inj in Heq. simpl in Heq. lia.
Qed.

(** What the agent's side parses out of [command_box]. *)
Lemma parseArguments_command_box cfg st a a' :
  is_Deployment cfg = true → is_DeploymentState st = true →
  wire_encode cfg ≠ [] → wire_encode st ≠ [] →
  wire_decode (wire_encode cfg) = Returns cfg →
  wire_decode (wire_encode st) = Returns st →
  continue_task (serialize_task_id a) = Returns a' →
  ∃ strings',
    parseArguments {| strings := command_box cfg st a; objects := ∅;
                      encoder := CachingEncoder_init |} =
    (Returns a', {| strings := strings';
                    objects := <["state" := st]> (<["configuration" := cfg]> ∅);
                    encoder := CachingEncoder_init |}).
Proof.
  intros Hcfg Hst Hne1 Hne2 Hd1 Hd2 Htask.
  unfold parseArguments, ClusterStatusCommand_configuration, ClusterStatusCommand_state,
    SerializableArgument.
  unfold mbind at 1, M_bind at 1.
  rewrite (Big_Argument_fromBox_chunks _ _ "configuration" _ (wire_encode cfg) cfg Hne1).
  2:{ intros i Hi. cbn [strings]. rewrite command_box_configuration.
      by rewrite decide_True. }
  2:{ cbn [strings]. rewrite command_box_configuration. by rewrite decide_False by lia. }
  2:{ unfold SerializableArgument_fromString. by rewrite Hd1, Hcfg. }
  cbn [strings objects encoder].
  unfold mbind at 1, M_bind at 1.
  rewrite (Big_Argument_fromBox_chunks _ _ "state" _ (wire_encode st) st Hne2).
  2:{ intros j Hj. cbn [strings]. rewrite command_box_state. by rewrite decide_True. }
  2:{ cbn [strings]. rewrite command_box_state. by rewrite decide_False by lia. }
  2:{ unfold SerializableArgument_fromString. by rewrite Hd2, Hst. }
  cbn [strings objects encoder].
  unfold mbind, M_bind, strings_pop. cbn [strings].
  rewrite lookup_delete_ne, lookup_delete_ne by done.
  unfold command_box at 1. rewrite lookup_insert_eq.
  cbn [set_strings strings objects encoder]. rewrite Htask. by eexists.
Qed.

(** X5. A [ClusterStatusCommand] made by [makeArguments] for a
    [Deployment] and a [DeploymentState], with a codec that decodes what
    it encodes and encodes to at least one byte, is parsed by the agent's
    locator into the same two objects: the responder calls
    [agent.cluster_updated(configuration, state)] with them and answers
    the empty response, or raises what [cluster_updated] raises. *)
Theorem ClusterStatusCommand_reaches_agent cfg st a a' enc (s : AgentState) :
  is_Deployment cfg = true → is_DeploymentState st = true →
  coherent enc →
  wire_encode cfg ≠ [] → wire_encode st ≠ [] →
  wire_decode (wire_encode cfg) = Returns cfg →
  wire_decode (wire_encode st) = Returns st →
  continue_task (serialize_task_id a) = Returns a' →
  ∃ fr',
    makeArguments cfg st a (args_frame cfg st enc) = (Returns tt, fr') ∧
    AgentAMP_dispatch "ClusterStatusCommand" (strings fr') s =
    match cluster_updated cfg st s with
    | (Returns _, s') => (Returns empty_response, s')
    | (Raises e, s') => (Raises e, s')
    end.
Proof.
  intros Hcfg Hst Hco Hne1 Hne2 Hd1 Hd2 Htask.
  destruct (makeArguments_cases cfg st a enc Hco)
    as [[Hf _]|[(_ & Hf & _)|(_ & _ & fr' & Hrun & Hbox & _)]]; [congruence..|].
  exists fr'. split; [done|]. rewrite Hbox.
  destruct (parseArguments_command_box cfg st a a' Hcfg Hst Hne1 Hne2 Hd1 Hd2 Htask)
    as (strings' & Hparse).
  unfold AgentAMP_dispatch. rewrite decide_False by done. rewrite decide_True by done.
  unfold ClusterStatusCommand_responder. rewrite Hparse. cbn [objects].
  rewrite lookup_insert_ne, lookup_insert_eq, lookup_insert_eq by done.
  unfold _AgentLocator_cluster_updated, mbind, M_bind.
  by destruct (cluster_updated cfg st s) as [[[]|e] s'].
Qed.

End WireRoundTrip.

(** The configuration 1 and the state 100, to an agent that records what
    it is told. *)
Lemma ClusterStatusCommand_reaches_agent_witness :
  let a := AGENT_CONNECTED (Obj:=nat) 0 in
  let enc := CachingEncoder_init (Obj:=nat) in
  is_Deployment 1 = true ∧ is_DeploymentState 100 = true ∧ coherent enc ∧
  wire_encode 1 ≠ [] ∧ wire_encode 100 ≠ [] ∧
  wire_decode (wire_encode 1) = Returns 1 ∧
  wire_decode (wire_encode 100) = Returns 100 ∧
  continue_task (serialize_task_id a) = Returns a ∧
  ∃ fr',
    makeArguments 1 100 a (args_frame 1 100 enc) = (Returns tt, fr') ∧
    AgentAMP_dispatch (AgentState:=list (nat * nat)) "ClusterStatusCommand" (strings fr') []
    = (Returns empty_response, [(1, 100)]).
Proof.
  intros a enc.
  assert (is_Deployment 1 = true) as H1 by reflexivity.
  assert (is_DeploymentState 100 = true) as H2 by reflexivity.
  assert (coherent enc) as H3 by apply coherent_init.
  assert (wire_encode 1 ≠ []) as H4 by discriminate.
  assert (wire_encode 100 ≠ []) as H5 by discriminate.
  assert (wire_decode (wire_encode 1) = Returns 1) as H6 by reflexivity.
  assert (wire_decode (wire_encode 100) = Returns 100) as H7 by reflexivity.
  assert (continue_task (serialize_task_id a) = Returns a) as H8 by reflexivity.
  split_and!; [exact H1|exact H2|exact H3|exact H4|exact H5|exact H6|exact H7|exact H8|].
  destruct (ClusterStatusCommand_reaches_agent 1 100 a a enc ([] : list (nat * nat))
              H1 H2 H3 H4 H5 H6 H7 H8) as (fr' & Hrun & Hdispatch).
  exists fr'. split; [exact Hrun|]. exact Hdispatch.
Defined.

(** ** The encoder and the wire over the life of the service *)

Section Keeping.
Context {Obj : Type} `{Countable Obj} `{!WireCodec Obj}.
Context {ClusterState : Type} `{!Collaborators Obj ClusterState}.

Local Abbreviation World := (world (Obj:=Obj) (ClusterState:=ClusterState)).
Implicit Types (w : World) (a : Action Obj) (cfg st : Obj) (P : World → Prop).

Global Instance same_codec_refl :
  Reflexive (same_codec (Obj:=Obj) (ClusterState:=ClusterState)).
Proof. by intros w. Qed.

Global Instance same_codec_trans :
  Transitive (same_codec (Obj:=Obj) (ClusterState:=ClusterState)).
Proof. intros w1 w2 w3 [] []. split; congruence. Qed.

Lemma keeps_ret P {A} (x : A) : keeps P (mret x : M World A).
Proof. by intros w. Qed.

Lemma keeps_bind P {A B} (m : M World A) (f : A → M World B) :
  keeps P m → (∀ x, keeps P (f x)) → keeps P (m ≫= f).
Proof.
  intros Hm Hf w Hw. unfold mbind, M_bind. specialize (Hm w Hw).
  destruct (m w) as [[x|e] w']; simpl in *; [|done]. by apply Hf.
Qed.

Lemma keeps_for_each P {A} (l : list A) (body : A → M World unit) :
  (∀ x, keeps P (body x)) → keeps P (for_each l body).
Proof. intros Hbody w Hw. apply for_each_preserves; [|done]. intros x s. apply Hbody. Qed.

Lemma keeps_same P {A} (m : M World A) :
  reads_codec P → (∀ w, same_codec w (snd (m w))) → keeps P m.
Proof. intros HP Hm w Hw. by apply (HP w). Qed.

Lemma same_codec_run_callback_now cb r w : same_codec w (snd (run_callback_now cb r w)).
Proof.
  destruct cb as [agent| |c|c], r as [|e]; simpl; try done.
  unfold del_current_command. by destruct (_ !! c).
Qed.

Lemma same_codec_addCallback d cb w : same_codec w (snd (addCallback d cb w)).
Proof.
  unfold addCallback. destruct (deferreds w !! d) as [[c cbs|r]|]; simpl; [done| |done].
  pose proof (same_codec_run_callback_now cb r w) as Hrun.
  destruct (run_callback_now cb r w) as [r' w']. simpl in *. done.
Qed.

Lemma keeps_with_action P {A} a (block : M World A) :
  reads_codec P → keeps P block → keeps P (with_action a block).
Proof.
  intros HP Hblock w Hw. unfold with_action.
  assert (P (snd (log (started a) w))) as Hw1 by (by apply (HP w)).
  specialize (Hblock _ Hw1).
  destruct (block _) as [[v|e] w']; simpl in *; by apply (HP w').
Qed.

Lemma keeps_update_connection P c cfg st a :
  reads_codec P →
  (∀ a', keeps P (callRemote c cfg st a')) →
  keeps P (_update_connection c cfg st a).
Proof.
  intros HP Hcall. unfold _update_connection.
  apply keeps_bind; [by apply keeps_same|]. intros _.
  apply keeps_bind; [apply Hcall|]. intros d.
  apply keeps_bind; [apply keeps_same; [done|apply same_codec_addCallback]|]. intros _.
  apply keeps_bind; [apply keeps_same; [done|apply same_codec_addCallback]|]. intros _.
  apply keeps_ret.
Qed.

Lemma keeps_send_state_to_connection P cfg st c :
  reads_codec P →
  (∀ a', keeps P (callRemote c cfg st a')) →
  keeps P (send_state_to_connection cfg st c).
Proof.
  intros HP Hcall w. unfold send_state_to_connection.
  destruct (_ !! c) as [[d []]|]; [done| |].
  - apply keeps_bind; [by apply keeps_same|]. intros _. by apply keeps_same.
  - apply keeps_bind.
    { apply keeps_same; [done|]. intros w'. unfold load_global_action.
      by destruct (global_action w'). }
    intros a. apply keeps_bind; [by apply keeps_update_connection|]. intros d.
    apply keeps_bind; [by apply keeps_same|]. intros _.
    apply keeps_same; [done|apply same_codec_addCallback].
Qed.

Lemma keeps_send_state_to_connections P l :
  stands_service P → keeps P (_send_state_to_connections l).
Proof.
  intros [HP Hcall Henter Hexit] w Hw. unfold _send_state_to_connections.
  set (cfg := configuration w). set (st := as_deployment (cluster_state w)).
  cbv zeta. apply keeps_with_action; [done| |done].
  clearbody cfg st. clear w Hw. intros w Hw. unfold with_cache. simpl.
  apply Henter in Hw.
  pose proof (keeps_for_each P l (send_state_to_connection cfg st)) as Hloop.
  specialize (Hloop (λ c, keeps_send_state_to_connection P _ _ c HP (Hcall c _ _)) _ Hw).
  destruct (for_each l _ _) as [[[]|e] w']; simpl in *; [by apply Hexit|done].
Qed.

Lemma keeps_run_callbacks P cbs r w :
  stands_service P → P w → P (snd (run_callbacks cbs r w)).
Proof.
  intros HP. revert r w. induction cbs as [|cb cbs IH]; intros r w Hw; [done|].
  simpl. assert (P (snd (run_callback cb r w))) as Hcb.
  { destruct cb as [agent| |c|c], r as [|e];
      try (apply (ss_reads P HP w); [apply same_codec_run_callback_now|done]).
    simpl. pose proof (keeps_send_state_to_connections P [c] HP w Hw) as Hsend.
    by destruct (_send_state_to_connections [c] w) as [[[]|e] w']. }
  destruct (run_callback cb r w) as [r' w']. by apply IH.
Qed.

Lemma keeps_fire P d r w : stands_service P → P w → P (fire d r w).
Proof.
  intros HP Hw. unfold fire. destruct (deferreds w !! d) as [[c cbs|r0]|]; [|done..].
  assert (P (set_deferreds <[d := Called r]> w)) as Hw1 by (by apply (ss_reads P HP w)).
  pose proof (keeps_run_callbacks P cbs r _ HP Hw1) as Hrun.
  destruct (run_callbacks cbs r _) as [r' w']. simpl in Hrun.
  by apply (ss_reads P HP w').
Qed.

Lemma keeps_step P e w : stands_service P → P w → P (step e w).
Proof.
  intros HP Hw. pose proof (ss_reads P HP) as Hreads. destruct e; simpl.
  - revert w Hw. unfold connectionMade. apply keeps_bind; [|intros _; by apply keeps_same].
    unfold connected. apply keeps_with_action; [done|].
    apply keeps_bind; [by apply keeps_same|]. intros _.
    by apply keeps_send_state_to_connections.
  - revert w Hw. apply keeps_bind; [by apply keeps_same|]. intros _.
    apply keeps_bind.
    + intros w Hw. simpl. induction (outstanding c w) as [|d ds IH]; simpl; [done|].
      by apply keeps_fire.
    + intros _. apply keeps_bind.
      * apply keeps_same; [done|]. intros w. unfold disconnected. by destruct (decide _).
      * intros _. apply keeps_same; [done|]. intros w. unfold Pinger_stop.
        by destruct (_ !! c) as [[]|].
  - by apply keeps_fire.
  - revert w Hw. apply keeps_bind; [by apply keeps_same|]. intros _ w.
    by apply keeps_send_state_to_connections.
  - revert w Hw. apply keeps_bind; [by apply keeps_same|]. intros _ w.
    apply keeps_for_each. intros [] w'. by apply keeps_send_state_to_connections.
  - by apply (Hreads w).
  - by apply (Hreads w).
  - revert w Hw. apply keeps_bind; [by apply keeps_same|]. intros _ w.
    apply keeps_for_each. intros c. by apply keeps_same.
Qed.

Lemma keeps_reachable P w :
  stands_service P →
  (∀ cluster cfg binding net, P (ControlAMPService_init cluster cfg binding net)) →
  reachable w → P w.
Proof.
  intros HP Hinit. induction 1 as [cluster cfg binding net|e w _ IH]; [apply Hinit|].
  by apply keeps_step.
Qed.

(** The encoder [makeArguments] leaves. *)
Lemma makeArguments_encoder cfg st a enc :
  coherent enc →
  coherent (encoder (snd (makeArguments cfg st a (args_frame cfg st enc)))) ∧
  (_cache enc = None →
     encoder (snd (makeArguments cfg st a (args_frame cfg st enc))) = enc) ∧
  (is_Some (_cache enc) →
     is_Some (_cache (encoder (snd (makeArguments cfg st a (args_frame cfg st enc)))))).
Proof.
  intros Hco.
  destruct (encode_coherent cfg enc Hco) as (e1 & He1 & Hco1 & Hc1).
  destruct (encode_coherent st e1 Hco1) as (e2 & He2 & Hco2 & Hc2).
  assert (_cache enc = None → e1 = enc ∧ e2 = enc) as Hnone.
  { intros Hn. rewrite Hn in Hc1. subst e1. rewrite Hn in Hc2. by subst e2. }
  assert (is_Some (_cache enc) → is_Some (_cache e1) ∧ is_Some (_cache e2)) as Hsome.
  { intros [cache Hs]. rewrite Hs in Hc1. rewrite Hc1 in Hc2. rewrite Hc1, Hc2. eauto. }
  destruct (makeArguments_cases cfg st a enc Hco)
    as [(_ & fr' & -> & Hfr)|[(_ & _ & fr' & -> & Hfr)|(_ & _ & fr' & -> & _ & Hfr)]];
    cbn [snd]; rewrite Hfr, ?He1; cbn [snd]; rewrite ?He2; cbn [snd].
  - done.
  - split; [done|]. split; [intros Hn; by apply Hnone|intros Hs; by apply Hsome].
  - split; [done|]. split; [intros Hn; by apply Hnone|intros Hs; by apply Hsome].
Qed.

Lemma cache_inv_stands : stands_service (cache_inv (Obj:=Obj) (ClusterState:=ClusterState)).
Proof.
  split.
  - intros w w' [Henc _]. unfold cache_inv. by rewrite Henc.
  - intros c cfg st a w Hw. unfold callRemote.
    pose proof (makeArguments_encoder cfg st a _ Hw) as (Hco & _).
    destruct (makeArguments cfg st a _) as [[[]|e] fr']; simpl in *; [|done].
    by destruct (transport w c).
  - intros w _. apply coherent_empty.
  - intros w _. apply coherent_none.
Qed.

(** X6. In every state the service reaches, [_caching_encoder.encode]
    returns the wire encoding of the object, whether the cache is active
    or not and whatever calls left it so. *)
Theorem reachable_cache_is_transparent w (obj : Obj) :
  reachable w →
  fst (encode obj (_caching_encoder w)) = Returns (wire_encode obj).
Proof.
  intros Hw.
  assert (cache_inv w) as Hco.
  { apply keeps_reachable; [apply cache_inv_stands| |done]. intros. apply coherent_init. }
  destruct (encode_coherent obj _ Hco) as (enc' & -> & _). done.
Qed.

End Keeping.

(** After a connection is made with [action] unbound, the cache is left
    active; [encode] gives the wire encoding all the same. *)
Lemma reachable_cache_is_transparent_witness :
  let w := step (ev_connectionMade 5) Example.service in
  reachable w ∧
  _cache (_caching_encoder w) = Some ∅ ∧
  fst (encode 3 (_caching_encoder w)) = Returns (replicate 4 "*"%byte).
Proof.
  intros w.
  assert (reachable w) as Hreach by apply reachable_step, reachable_init.
  split; [exact Hreach|]. split; [vm_compute; reflexivity|].
  exact (reachable_cache_is_transparent w 3 Hreach).
Defined.

(** ** What a broadcast writes *)

Section Broadcast.
Context {Obj : Type} `{Countable Obj} `{!WireCodec Obj}.
Context {ClusterState : Type} `{!Collaborators Obj ClusterState}.

Local Abbreviation World := (world (Obj:=Obj) (ClusterState:=ClusterState)).
Implicit Types (w : World) (a : Action Obj) (cfg st : Obj) (m : message (Obj:=Obj)).

(** One turn of the loop removes no entry, and writes nothing or one
    command of the snapshot, on a connection that had no entry and has
    one now. *)
Lemma visit_sends cfg st c w :
  (∀ c', is_Some (_current_command_for_connection w !! c') →
     is_Some (_current_command_for_connection
                (snd (send_state_to_connection cfg st c w)) !! c')) ∧
  (wire (snd (send_state_to_connection cfg st c w)) = wire w ∨
   ∃ m, wire (snd (send_state_to_connection cfg st c w)) = wire w ++ [m] ∧
        carries c cfg st m ∧
        _current_command_for_connection w !! c = None ∧
        transport w c = Connected ∧
        is_Some (_current_command_for_connection
                   (snd (send_state_to_connection cfg st c w)) !! c)).
Proof.
  assert (∀ w' (v : deferred_id * bool),
            _current_command_for_connection w'
              = <[c := v]> (_current_command_for_connection w) →
            ∀ c', is_Some (_current_command_for_connection w !! c') →
                  is_Some (_current_command_for_connection w' !! c')) as Hins.
  { intros w' v -> c' Hc'. destruct (decide (c' = c)) as [->|Hne].
    - rewrite lookup_insert_eq. eauto.
    - by rewrite lookup_insert_ne. }
  destruct (_current_command_for_connection w !! c) as [[d [|]]|] eqn:Hcur.
  - rewrite (busy_scheduled cfg st c w d) by done. split; [done|by left].
  - destruct (busy_unscheduled cfg st c w d Hcur) as (w' & Hrun & _ & Hcur' & Hwire).
    rewrite Hrun. simpl. split; [by eapply Hins|by left].
  - destruct (global_action w) as [a|] eqn:Hga;
      [|rewrite idle_unbound by done; split; [done|by left]].
    destruct (makeArguments cfg st (LOG_SEND_TO_AGENT c)
                (args_frame cfg st (_caching_encoder w))) as [[[]|e] fr'] eqn:Hmk.
    + destruct (transport w c) as [|reason|e] eqn:Hnet.
      * destruct (idle_connected cfg st c w a fr')
          as (w' & d & Hrun & _ & _ & Hcur' & Hwire); [done..|].
        rewrite Hrun. simpl. split; [by eapply Hins|]. right.
        eexists. split; [done|]. split; [done|]. split; [done|]. split; [done|].
        rewrite Hcur', lookup_insert_eq. eauto.
      * destruct (idle_lost cfg st c w a reason fr')
          as (w' & d & Hrun & _ & _ & Hcur' & Hwire); [done..|].
        rewrite Hrun. simpl. rewrite Hcur'. split; [done|by left].
      * destruct (idle_failing cfg st c w a e fr') as (w' & Hrun & _ & Hcur' & Hwire);
          [done..|]. rewrite Hrun. simpl. rewrite Hcur'. split; [done|by left].
    + destruct (idle_unserializable cfg st c w a e fr') as (w' & Hrun & _ & Hcur' & Hwire);
        [done..|]. rewrite Hrun. simpl. rewrite Hcur'. split; [done|by left].
Qed.

(** The loop: what it writes is on distinct targets that had no entry,
    with a connected transport, and is the snapshot. *)
Lemma loop_sends cfg st l w :
  ∃ new,
    wire (snd (for_each l (send_state_to_connection cfg st) w)) = wire w ++ new ∧
    NoDup (msg_connection <$> new) ∧
    (∀ m, m ∈ new →
       msg_connection m ∈ l ∧ carries (msg_connection m) cfg st m ∧
       _current_command_for_connection w !! msg_connection m = None ∧
       transport w (msg_connection m) = Connected ∧
       is_Some (_current_command_for_connection
                  (snd (for_each l (send_state_to_connection cfg st) w))
                !! msg_connection m)) ∧
    (∀ c', is_Some (_current_command_for_connection w !! c') →
       is_Some (_current_command_for_connection
                  (snd (for_each l (send_state_to_connection cfg st) w)) !! c')).
Proof.
  revert w. induction l as [|c l IH]; intros w.
  - exists []. simpl. rewrite app_nil_r. split_and!; [done|constructor| |done].
    intros m Hm. by apply elem_of_nil in Hm.
  - simpl. unfold mbind, M_bind.
    destruct (visit_sends cfg st c w) as [Hmono Hsent].
    pose proof (evolving_send_state_to_connection cfg st c w) as Hev.
    destruct (send_state_to_connection cfg st c w) as [[[]|e] w1] eqn:Hvisit;
      cbn [snd] in *.
    + destruct (IH w1) as (new2 & Hwire2 & Hnd2 & Hnew2 & Hmono2).
      destruct Hsent as [Hsame|(m1 & Hone & Hcar & Hidle & Hnet & Hentry)].
      * exists new2. split_and!; [by rewrite Hwire2, Hsame|done| |by auto].
        intros m Hm. destruct (Hnew2 m Hm) as (Hin & Hc & Hi & Ht & He).
        split_and!; [by apply elem_of_cons; right|done| |by rewrite <-(ev_transport _ _ Hev)|done].
        destruct (_current_command_for_connection w !! msg_connection m) eqn:Hw; [|done].
        destruct (Hmono (msg_connection m)) as [v Hv]; [by rewrite Hw|]. congruence.
      * exists (m1 :: new2). split_and!.
        -- by rewrite Hwire2, Hone, <-app_assoc.
        -- rewrite fmap_cons. constructor; [|done].
           intros (m & Heq & Hm)%list_elem_of_fmap.
           destruct (Hnew2 m Hm) as (_ & _ & Hi & _). destruct Hcar as (Hc1 & _).
           rewrite <-Heq, Hc1 in Hi. rewrite Hi in Hentry. by destruct Hentry.
        -- intros m [->|Hm]%elem_of_cons.
           ++ destruct Hcar as (Hc1 & Hcfg1 & Hst1). rewrite Hc1.
              split_and!; [by apply elem_of_cons; left|done|done|done|by apply Hmono2].
           ++ destruct (Hnew2 m Hm) as (Hin & Hc & Hi & Ht & He).
              split_and!; [by apply elem_of_cons; right|done|
                           |by rewrite <-(ev_transport _ _ Hev)|done].
              destruct (_current_command_for_connection w !! msg_connection m) eqn:Hw;
                [|done].
              destruct (Hmono (msg_connection m)) as [v Hv]; [by rewrite Hw|]. congruence.
        -- by auto.
    + destruct Hsent as [Hsame|(m1 & Hone & Hcar & Hidle & Hnet & Hentry)].
      * exists []. rewrite app_nil_r. split_and!; [done|constructor| |done].
        intros m Hm. by apply elem_of_nil in Hm.
      * exists [m1]. split_and!; [done|apply NoDup_singleton| |done].
        intros m ->%list_elem_of_singleton. destruct Hcar as (Hc1 & Hcfg1 & Hst1).
        rewrite Hc1. split_and!; [by apply elem_of_cons; left|done..].
Qed.

(** The broadcast is its loop, run with the start logged and the cache
    started. *)
Lemma broadcast_is_loop l w :
  ∃ w0,
    connections w0 = connections w ∧
    _current_command_for_connection w0 = _current_command_for_connection w ∧
    cluster_state w0 = cluster_state w ∧ configuration w0 = configuration w ∧
    global_action w0 = global_action w ∧ deferreds w0 = deferreds w ∧
    transport w0 = transport w ∧ wire w0 = wire w ∧
    _caching_encoder w0 = {| _cache := Some ∅ |} ∧
    let loop := for_each l (send_state_to_connection (configuration w)
                              (as_deployment (cluster_state w))) w0 in
    fst (_send_state_to_connections l w) = fst loop ∧
    _current_command_for_connection (snd (_send_state_to_connections l w))
      = _current_command_for_connection (snd loop) ∧
    deferreds (snd (_send_state_to_connections l w)) = deferreds (snd loop) ∧
    wire (snd (_send_state_to_connections l w)) = wire (snd loop) ∧
    _caching_encoder (snd (_send_state_to_connections l w))
      = match fst loop with
        | Returns _ => {| _cache := None |}
        | Raises _ => _caching_encoder (snd loop)
        end.
Proof.
  eexists (set_caching_encoder {| _cache := Some ∅ |}
             (snd (log (started (LOG_SEND_CLUSTER_STATE (configuration w)
                                   (as_deployment (cluster_state w)))) w))).
  split_and!; [done..|]. cbv zeta.
  unfold _send_state_to_connections, with_action, with_cache. simpl.
  by destruct (for_each l _ _) as [[[]|e] w1].
Qed.

(** What a broadcast writes, whatever its outcome. *)
Lemma broadcast_sends l w :
  ∃ new,
    wire (snd (_send_state_to_connections l w)) = wire w ++ new ∧
    NoDup (msg_connection <$> new) ∧
    (∀ m, m ∈ new →
       msg_connection m ∈ l ∧
       msg_configuration m = configuration w ∧
       msg_state m = as_deployment (cluster_state w) ∧
       _current_command_for_connection w !! msg_connection m = None ∧
       transport w (msg_connection m) = Connected) ∧
    connections (snd (_send_state_to_connections l w)) = connections w ∧
    configuration (snd (_send_state_to_connections l w)) = configuration w ∧
    cluster_state (snd (_send_state_to_connections l w)) = cluster_state w.
Proof.
  destruct (broadcast_is_loop l w)
    as (w0 & _ & Hcur0 & _ & _ & _ & _ & Hnet0 & Hwire0 & _ & _ & _ & _ & Hwire & _).
  destruct (loop_sends (configuration w) (as_deployment (cluster_state w)) l w0)
    as (new & Hnew & Hnd & Hall & _).
  pose proof (evolving_send_state_to_connections l w) as Hev.
  exists new. split_and!;
    [by rewrite Hwire, Hnew, Hwire0|done| |apply Hev|apply Hev|apply Hev].
  intros m Hm. destruct (Hall m Hm) as (Hin & (_ & Hcfg & Hst) & Hidle & Hnet & _).
  rewrite Hcur0 in Hidle. rewrite Hnet0 in Hnet. done.
Qed.

(** X8. A broadcast, in any state and whatever its outcome, writes at most
    one [ClusterStatusCommand] per connection, even when a target is
    listed more than once: only on targets that had no command under way
    and whose transport is connected, each command carrying the
    configuration and the cluster state read when the broadcast began.
    The registry, the configuration and the cluster state are left as
    they were. *)
Theorem broadcast_writes_snapshot_once l w :
  ∃ new,
    wire (snd (_send_state_to_connections l w)) = wire w ++ new ∧
    NoDup (msg_connection <$> new) ∧
    (∀ m, m ∈ new →
       msg_connection m ∈ l ∧
       msg_configuration m = configuration w ∧
       msg_state m = as_deployment (cluster_state w) ∧
       _current_command_for_connection w !! msg_connection m = None ∧
       transport w (msg_connection m) = Connected) ∧
    connections (snd (_send_state_to_connections l w)) = connections w ∧
    configuration (snd (_send_state_to_connections l w)) = configuration w ∧
    cluster_state (snd (_send_state_to_connections l w)) = cluster_state w.
Proof. apply broadcast_sends. Qed.



(** With the name [action] unbound and no entry, the broadcast writes
    nothing and creates no [Deferred]. *)
Lemma broadcast_unbound l w :
  global_action w = None →
  _current_command_for_connection w = ∅ →
  wire (snd (_send_state_to_connections l w)) = wire w ∧
  deferreds (snd (_send_state_to_connections l w)) = deferreds w ∧
  _current_command_for_connection (snd (_send_state_to_connections l w)) = ∅.
Proof.
  intros Hga Hcur.
  destruct (broadcast_is_loop l w)
    as (w0 & _ & Hcur0 & _ & _ & Hga0 & Hds0 & _ & Hwire0 & _ & _ & Hc & Hd & Hw & _).
  rewrite Hc, Hd, Hw, <-Hwire0, <-Hds0. rewrite <-Hga0 in Hga. rewrite <-Hcur0 in Hcur.
  destruct l as [|c l]; [done|]. simpl. unfold mbind, M_bind.
  rewrite idle_unbound; [done| |done]. by rewrite Hcur.
Qed.

(** Without a binding of [action] the loop goes as far as the first
    target that has no entry, and raises there. *)
Lemma loop_stops_unbound cfg st l w c :
  global_action w = None →
  c ∈ l → _current_command_for_connection w !! c = None →
  fst (for_each l (send_state_to_connection cfg st) w) = Raises NameError ∧
  wire (snd (for_each l (send_state_to_connection cfg st) w)) = wire w.
Proof.
  revert w. induction l as [|x l IH]; intros w Hga Hin Hcur;
    [by apply elem_of_nil in Hin|].
  simpl. unfold mbind, M_bind.
  destruct (_current_command_for_connection w !! x) as [[d [|]]|] eqn:Hx.
  - rewrite (busy_scheduled cfg st x w d) by done.
    apply IH; [done| |done]. apply elem_of_cons in Hin as [->|Hin]; [congruence|done].
  - destruct (busy_unscheduled cfg st x w d Hx) as (w' & Hrun & _ & Hcur' & Hwire).
    pose proof (evolving_send_state_to_connection cfg st x w) as Hev.
    rewrite Hrun in Hev |- *. simpl in Hev. rewrite <-Hwire.
    assert (x ≠ c) as Hne by congruence.
    apply IH.
    + by rewrite (ev_global_action _ _ Hev).
    + apply elem_of_cons in Hin as [->|Hin]; [done|done].
    + by rewrite Hcur', lookup_insert_ne.
  - by rewrite idle_unbound.
Qed.

(** C7, on the code.  In the module, where nothing binds the name
    [action], a broadcast over targets of which one has no command under
    way raises [NameError] where it comes to the first such target: the
    failure of that one send ends the loop, and no target, be it idle and
    connected, is sent its [ClusterStatusCommand]. *)
Theorem broadcast_stops_at_unbound_action l w c :
  global_action w = None →
  c ∈ l → _current_command_for_connection w !! c = None →
  fst (_send_state_to_connections l w) = Raises NameError ∧
  wire (snd (_send_state_to_connections l w)) = wire w.
Proof.
  intros Hga Hin Hcur.
  destruct (broadcast_is_loop l w)
    as (w0 & _ & Hcur0 & _ & _ & Hga0 & _ & _ & Hwire0 & _ & Hfst & _ & _ & Hwire & _).
  rewrite Hfst, Hwire, <-Hwire0.
  apply (loop_stops_unbound _ _ l w0 c); [by rewrite Hga0|done|by rewrite Hcur0].
Qed.

Lemma step_unbound e w :
  global_action w = None ∧ wire w = [] ∧ deferreds w = ∅ ∧
  _current_command_for_connection w = ∅ →
  global_action (step e w) = None ∧ wire (step e w) = [] ∧
  deferreds (step e w) = ∅ ∧ _current_command_for_connection (step e w) = ∅.
Proof.
  set (Q := λ w : World, global_action w = None ∧ wire w = [] ∧ deferreds w = ∅ ∧
                         _current_command_for_connection w = ∅).
  assert (∀ l w1, Q w1 → Q (snd (_send_state_to_connections l w1))) as Hsend.
  { intros l w1 (Hga1 & Hwire1 & Hds1 & Hcur1).
    destruct (broadcast_unbound l w1 Hga1 Hcur1) as (Hw & Hd & Hc).
    pose proof (evolving_send_state_to_connections l w1) as Hev.
    unfold Q. by rewrite (ev_global_action _ _ Hev), Hw, Hd, Hc. }
  intros Hw. change (Q w) in Hw. change (Q (step e w)). destruct e; simpl.
  - unfold connectionMade, connected, with_action, mbind, M_bind. simpl.
    match goal with |- context [_send_state_to_connections ?l ?w1] =>
      assert (Q (snd (_send_state_to_connections l w1))) as Hw' by (by apply Hsend);
      by destruct (_send_state_to_connections l w1) as [[[]|?] ?] end.
  - destruct Hw as (Hga & Hwire & Hds & Hcur).
    unfold connectionLost, mbind, M_bind. simpl.
    unfold outstanding. simpl. rewrite Hds, map_to_list_empty. simpl.
    unfold disconnected. simpl. destruct (decide _); [|done].
    unfold Pinger_stop. simpl. by destruct (_ !! c) as [[]|].
  - destruct Hw as (Hga & Hwire & Hds & Hcur).
    unfold fire. by rewrite Hds, lookup_empty.
  - unfold node_changed, mbind, M_bind. simpl. by apply Hsend.
  - unfold configuration_save, mbind, M_bind. simpl.
    apply (for_each_preserves Q); [|done]. intros [] w1 Hw1. by apply Hsend.
  - done.
  - done.
  - unfold stopService, mbind, M_bind. simpl.
    apply (for_each_preserves Q); [|done]. by intros c w1 Hw1.
Qed.

(** X10. As the module is, with no binding of the name [action]: whatever
    happens to a service created by [__init__] (connections made and
    lost, answers, node changes, configuration changes, start, stop), in
    any order, it never writes a [ClusterStatusCommand], never has a
    [Deferred] and never records a command as under way. *)
Theorem unbound_action_never_sends (cluster : ClusterState) cfg net es :
  wire (run es (ControlAMPService_init cluster cfg None net)) = [] ∧
  deferreds (run es (ControlAMPService_init cluster cfg None net)) = ∅ ∧
  _current_command_for_connection (run es (ControlAMPService_init cluster cfg None net)) = ∅.
Proof.
  assert (∀ w, global_action w = None ∧ wire w = [] ∧ deferreds w = ∅ ∧
               _current_command_for_connection w = ∅ →
          global_action (run es w) = None ∧ wire (run es w) = [] ∧
          deferreds (run es w) = ∅ ∧ _current_command_for_connection (run es w) = ∅)
    as Hrun.
  { induction es as [|e es IH]; intros w Hw; [done|]. simpl. apply IH.
    by apply step_unbound. }
  by destruct (Hrun (ControlAMPService_init cluster cfg None net)) as (_ & ? & ? & ?).
Qed.

(** X11. [connected] adds the connection to the registry before it
    broadcasts, so the connection is registered whatever the outcome; it
    writes at most one [ClusterStatusCommand], on the new connection, with
    the configuration and the cluster state of the moment, and leaves the
    entries of the other connections alone. *)
Theorem connected_registers_and_sends_to_one c w :
  connections (snd (connected c w)) = {[c]} ∪ connections w ∧
  (∃ new,
     wire (snd (connected c w)) = wire w ++ new ∧ length new ≤ 1 ∧
     ∀ m, m ∈ new →
       msg_connection m = c ∧ msg_configuration m = configuration w ∧
       msg_state m = as_deployment (cluster_state w)) ∧
  ∀ c', c' ≠ c →
    _current_command_for_connection (snd (connected c w)) !! c'
    = _current_command_for_connection w !! c'.
Proof.
  unfold connected, with_action, mbind, M_bind. simpl.
  match goal with |- context [_send_state_to_connections [c] ?w1] =>
    set (w0 := w1) end.
  destruct (broadcast_sends [c] w0) as (new & Hwire & Hnd & Hall & Hconn & _).
  pose proof (send_state_to_connections_other [c] w0) as Hother.
  assert (length new ≤ 1) as Hlen.
  { destruct new as [|m1 [|m2 new']]; simpl; [lia..|]. exfalso.
    destruct (Hall m1) as (Hm1%list_elem_of_singleton & _); [by left|].
    destruct (Hall m2) as (Hm2%list_elem_of_singleton & _); [by right; left|].
    simpl in Hnd. apply NoDup_cons in Hnd as [Hnot _]. apply Hnot.
    rewrite Hm1, Hm2. by left. }
  assert (∀ m, m ∈ new → msg_connection m = c ∧ msg_configuration m = configuration w ∧
            msg_state m = as_deployment (cluster_state w)) as Hnew.
  { intros m Hm. destruct (Hall m Hm) as (Hc%list_elem_of_singleton & ? & ? & _). done. }
  assert (∀ c', c' ≠ c →
            _current_command_for_connection (snd (_send_state_to_connections [c] w0)) !! c'
            = _current_command_for_connection w !! c') as Hother'.
  { intros c' Hc'. rewrite Hother; [done|]. by intros ?%list_elem_of_singleton. }
  destruct (_send_state_to_connections [c] w0) as [[[]|e] w']; simpl in *;
    (split_and!; [done|by exists new|done]).
Qed.

(** X12. [node_changed] records the change in the cluster state before it
    broadcasts, so the change is recorded whatever the outcome; every
    [ClusterStatusCommand] it writes goes to a registered connection and
    carries the cluster state with the change applied. *)
Theorem node_changed_records_then_sends source state_changes w :
  cluster_state (snd (node_changed source state_changes w))
    = apply_changes_from_source source state_changes (cluster_state w) ∧
  connections (snd (node_changed source state_changes w)) = connections w ∧
  ∃ new,
    wire (snd (node_changed source state_changes w)) = wire w ++ new ∧
    ∀ m, m ∈ new →
      msg_connection m ∈ connections w ∧
      msg_configuration m = configuration w ∧
      msg_state m = as_deployment
                      (apply_changes_from_source source state_changes (cluster_state w)).
Proof.
  unfold node_changed, mbind, M_bind. simpl.
  match goal with |- context [_send_state_to_connections ?l ?w1] =>
    set (w0 := w1) end.
  destruct (broadcast_sends (elements (connections w0)) w0)
    as (new & Hwire & _ & Hall & Hconn & _ & Hstate).
  split_and!; [done..|]. exists new. split; [done|].
  intros m Hm. destruct (Hall m Hm) as (Hin%elem_of_elements & ? & ? & _). done.
Qed.

(** ** A connection is lost *)

Lemma elem_of_outstanding c w d :
  d ∈ outstanding c w ↔ ∃ cbs, deferreds w !! d = Some (Pending c cbs).
Proof.
  unfold outstanding. rewrite list_elem_of_fmap. split.
  - intros ([d' ds] & -> & Hin). apply list_elem_of_filter in Hin as [Hout Hin].
    apply elem_of_map_to_list in Hin. simpl in *.
    destruct ds as [c' cbs|r]; simpl in Hout; [|done].
    apply bool_decide_eq_true in Hout as ->. eauto.
  - intros [cbs Hd]. exists (d, Pending c cbs). split; [done|].
    apply list_elem_of_filter. split; [simpl; by apply bool_decide_eq_true|].
    by apply elem_of_map_to_list.
Qed.

(** A broadcast to a connection that is lost and has no entry. *)
Lemma broadcast_lost c reason w :
  _current_command_for_connection w !! c = None →
  transport w c = Lost reason →
  _current_command_for_connection (snd (_send_state_to_connections [c] w)) !! c = None ∧
  wire (snd (_send_state_to_connections [c] w)) = wire w.
Proof.
  intros Hcur Hnet. split.
  - destruct (broadcast_is_loop [c] w)
      as (w0 & _ & Hcur0 & _ & _ & _ & _ & Hnet0 & _ & _ & _ & Hc & _).
    rewrite Hc. rewrite <-Hcur0 in Hcur. rewrite <-Hnet0 in Hnet. clear Hc.
    set (cfg := configuration w). set (st := as_deployment (cluster_state w)).
    assert (_current_command_for_connection (snd (send_state_to_connection cfg st c w0))
            = _current_command_for_connection w0) as Hvisit.
    { destruct (global_action w0) as [a|] eqn:Hga; [|by rewrite idle_unbound].
      destruct (makeArguments cfg st (LOG_SEND_TO_AGENT c)
                  (args_frame cfg st (_caching_encoder w0))) as [[[]|e] fr'] eqn:Hmk.
      - destruct (idle_lost cfg st c w0 a reason fr')
          as (w' & d & Hrun & _ & _ & Hcur' & _); [done..|]. by rewrite Hrun.
      - destruct (idle_unserializable cfg st c w0 a e fr') as (w' & Hrun & _ & Hcur' & _);
          [done..|]. by rewrite Hrun. }
    simpl. unfold mbind, M_bind.
    destruct (send_state_to_connection cfg st c w0) as [[[]|e] w1]; simpl in *;
      by rewrite Hvisit.
  - destruct (broadcast_sends [c] w) as (new & Hwire & _ & Hall & _).
    destruct new as [|m new]; [by rewrite Hwire, app_nil_r|].
    destruct (Hall m) as (Hm%list_elem_of_singleton & _ & _ & _ & Hconn); [by left|].
    rewrite Hm in Hconn. congruence.
Qed.

(** The command of a lost connection fails: its entry goes, and the
    follow-up, if one was scheduled, writes nothing and leaves no entry. *)
Lemma fire_lost c d b reason r w :
  service_inv w →
  _current_command_for_connection w !! c = Some (d, b) →
  transport w c = Lost reason →
  _current_command_for_connection (fire d r w) !! c = None ∧
  wire (fire d r w) = wire w ∧
  connections (fire d r w) = connections w ∧
  _pinging (fire d r w) = _pinging w.
Proof.
  intros Hinv Hcur Hnet. pose proof (proj2 Hinv c d b Hcur) as Hd.
  unfold fire. rewrite Hd.
  set (w1 := set_deferreds <[d := Called r]> w).
  unfold chain. rewrite run_callbacks_app.
  rewrite (run_callbacks_answered c d b r w1) by done.
  set (w2 := set_current_command (delete c)
               (snd (log (finished (LOG_SEND_TO_AGENT c) r) w1))).
  assert (_current_command_for_connection w2 !! c = None) as Hcur2
    by (unfold w2, w1; simpl; apply lookup_delete_eq).
  assert (transport w2 c = Lost reason) as Hnet2 by done.
  assert (wire w2 = wire w ∧ connections w2 = connections w ∧ _pinging w2 = _pinging w)
    as (Hw2 & Hc2 & Ht2) by done.
  clearbody w2. clear w1. destruct b; simpl; [|done].
  destruct (broadcast_lost c reason w2 Hcur2 Hnet2) as [Hcur3 Hwire3].
  pose proof (evolving_send_state_to_connections [c] w2) as Hev.
  destruct (_send_state_to_connections [c] w2) as [[[]|e] w3]; simpl in *;
    (split_and!; [done|congruence|by rewrite (ev_connections _ _ Hev)
                 |by rewrite (ev_pinging _ _ Hev)]).
Qed.

Lemma foldr_fire_same d r w l :
  (∀ x, x ∈ l → x = d) → l ≠ [] →
  is_Some (deferreds w !! d) →
  foldr (λ d, fire d r) w l = fire d r w.
Proof.
  intros Hall Hne Hd. induction l as [|x l IH]; [done|]. simpl.
  rewrite (Hall x) by (by left). destruct l as [|y l]; [done|].
  rewrite IH; [|intros z Hz; apply Hall; by right|done].
  assert (∃ r', deferreds (fire d r w) !! d = Some (Called r')) as [r' Hcalled].
  { unfold fire. destruct Hd as [[c cbs|r0] Hd]; rewrite Hd; [|eauto].
    destruct (run_callbacks cbs r _) as [r' w']. simpl. eexists. apply lookup_insert_eq. }
  unfold fire at 1. by rewrite Hcalled.
Qed.

(** X14. [ControlAMP.connectionLost], in a state of the service where the
    entries are the commands under way: the command of the connection,
    if there is one, is failed and its entry deleted, so that afterwards
    the connection has no entry and no command under way; nothing is
    written, not by a follow-up that was scheduled either; the entries of
    the other connections stay; and the connection leaves the registry.
    The call raises [KeyError] when the connection was not in the
    registry; otherwise it ends in [Pinger.stop], which raises
    [AttributeError] when the pinger was never started (the case of every
    connection whose [connectionMade] raised), [AssertionError] when it
    was stopped already, and returns when it was running. *)
Theorem connectionLost_cleans_up c reason w :
  service_inv w →
  fst (connectionLost c reason w)
    = (if decide (c ∈ connections w)
       then match _pinging w !! c with
            | Some true => Returns tt
            | Some false => Raises AssertionError
            | None => Raises AttributeError
            end
       else Raises KeyError) ∧
  connections (snd (connectionLost c reason w)) = connections w ∖ {[c]} ∧
  _current_command_for_connection (snd (connectionLost c reason w)) !! c = None ∧
  (∀ d, ¬ in_flight (snd (connectionLost c reason w)) d c) ∧
  wire (snd (connectionLost c reason w)) = wire w ∧
  (∀ c', c' ≠ c →
     _current_command_for_connection (snd (connectionLost c reason w)) !! c'
     = _current_command_for_connection w !! c').
Proof.
  intros Hinv.
  pose proof (preserving_connectionLost c reason w Hinv) as Hinv'.
  assert (∀ w', service_inv w' → _current_command_for_connection w' !! c = None →
            ∀ d, ¬ in_flight w' d c) as Hnone.
  { intros w' Hw' Hcur d [b Hb]%service_inv_in_flight; [|done]. congruence. }
  revert Hinv'. unfold connectionLost, mbind, M_bind. simpl.
  set (w1 := set_transport _ w).
  assert (service_inv w1) as Hinv1 by done.
  assert (transport w1 c = Lost reason) as Hnet1.
  { unfold w1. simpl. by rewrite decide_True. }
  assert (∃ w2, foldr (λ d, fire d (Failure reason)) w1 (outstanding c w1) = w2 ∧
            _current_command_for_connection w2 !! c = None ∧
            wire w2 = wire w ∧ connections w2 = connections w ∧
            _pinging w2 = _pinging w ∧
            (∀ c', c' ≠ c → _current_command_for_connection w2 !! c'
                            = _current_command_for_connection w !! c'))
    as (w2 & -> & Hcur2 & Hwire2 & Hconn2 & Hping2 & Hother2).
  { destruct (_current_command_for_connection w1 !! c) as [[d b]|] eqn:Hcur.
    - rewrite (foldr_fire_same d).
      + destruct (fire_lost c d b reason (Failure reason) w1 Hinv1 Hcur Hnet1)
          as (Hc & Hw & Hconn & Hping).
        destruct (fire_completes c d b (Failure reason) w1 Hinv1 Hcur) as [_ Hother].
        eexists. split; [done|]. split_and!; done.
      + intros x [cbs Hx]%elem_of_outstanding.
        destruct (proj1 Hinv1 x c cbs Hx) as (b' & Hb' & _). congruence.
      + intros Hnil. pose proof (proj2 Hinv1 c d b Hcur) as Hd.
        assert (d ∈ outstanding c w1) as Hin by (apply elem_of_outstanding; eauto).
        rewrite Hnil in Hin. by apply elem_of_nil in Hin.
      + rewrite (proj2 Hinv1 c d b Hcur). eauto.
    - assert (outstanding c w1 = []) as ->.
      { destruct (outstanding c w1) as [|x l] eqn:Hout; [done|].
        assert (x ∈ outstanding c w1) as [cbs Hx]%elem_of_outstanding
          by (rewrite Hout; by left).
        destruct (proj1 Hinv1 x c cbs Hx) as (b' & Hb' & _). congruence. }
      simpl. eexists. split; [done|]. split_and!; done. }
  unfold disconnected. rewrite Hconn2. intros Hinv'.
  destruct (decide (c ∈ connections w)) as [Hin|Hin]; simpl in *.
  - unfold Pinger_stop in *. simpl in *. rewrite Hping2 in *.
    destruct (_pinging w !! c) as [[]|]; simpl in *;
      (split_and!; [done|by rewrite Hconn2|done|by apply Hnone|done|done]).
  - split_and!; [done| |done|by apply Hnone|done|done].
    rewrite Hconn2. apply set_eq. intros x. rewrite elem_of_difference, elem_of_singleton.
    split; [|by intros []]. intros Hx. split; [done|]. by intros ->.
Qed.

End Broadcast.

(** Connection 5 is lost after its [connectionMade] raised [NameError],
    on the service as [__init__] leaves it. *)
Lemma connectionLost_cleans_up_witness :
  let w := step (ev_connectionMade 5) Example.service in
  service_inv w ∧
  5 ∈ connections w ∧
  fst (connectionLost 5 (RemoteError 7) w) = Raises AttributeError ∧
  connections (snd (connectionLost 5 (RemoteError 7) w)) = connections w ∖ {[5]}.
Proof.
  intros w.
  assert (service_inv w) as Hinv by apply reachable_inv, reachable_step, reachable_init.
  split; [exact Hinv|]. split; [vm_compute; reflexivity|].
  destruct (connectionLost_cleans_up 5 (RemoteError 7) w Hinv) as (Hfst & Hconn & _).
  split; [|exact Hconn]. refine (eq_trans Hfst _). vm_compute. reflexivity.
Defined.

(** Two agents have connected to the service as [__init__] leaves it;
    both are registered, idle and connected when the state is broadcast. *)
Lemma broadcast_stops_at_unbound_action_witness :
  let w := run [ev_connectionMade 1; ev_connectionMade 2] Example.service in
  global_action w = None ∧
  1 ∈ [1; 2] ∧
  _current_command_for_connection w !! 1 = None ∧
  (_current_command_for_connection w !! 2 = None ∧ transport w 2 = Connected) ∧
  fst (_send_state_to_connections [1; 2] w) = Raises NameError ∧
  wire (snd (_send_state_to_connections [1; 2] w)) = [].
Proof.
  intros w.
  assert (global_action w = None) as H1 by (vm_compute; reflexivity).
  assert (1 ∈ [1; 2]) as H2 by apply list_elem_of_here.
  assert (_current_command_for_connection w !! 1 = None) as H3
    by (vm_compute; reflexivity).
  split; [exact H1|]. split; [exact H2|]. split; [exact H3|].
  split; [split; vm_compute; reflexivity|].
  destruct (broadcast_stops_at_unbound_action [1; 2] w 1 H1 H2 H3) as [Hfst Hwire].
  split; [exact Hfst|]. refine (eq_trans Hwire _). vm_compute. reflexivity.
Defined.
